(** * Moving-average crossover grid search ([definitive_app.py])

    A shallow embedding of [definitive_app.py]: the numeric core
    ([moving_average_crossover_signals], [backtest_signals],
    [compute_performance] and [find_best_edges], together with the pandas
    and numpy operations they call), the two PowerLanguage functions
    ([analyse_powerlanguage_file] and [generate_powerlanguage_strategy],
    together with the [str] methods they call), the cleaning of column
    names in [parse_data_file] and the path of [main] from the prices to
    the strategy text.

    Conventions of the embedding.
    - A float64 is an [f64]: an exact rational kept in lowest terms, one of
      the two infinities, or NaN.  Rounding, overflow and the sign of zero
      are abstracted away; the special values follow IEEE 754.
    - A [pd.Series] with the default index is the list of its values.  A
      float series carries its missing values as [NaN]; an integer series
      that pandas is asked to fill is a list of [option Z].
    - A Python exception is the [Raise] branch of [result].
    - A [str] is the list of its characters, for code points below 256.
      Reading and writing files, printing and plotting are left out: a
      function that reads a file takes the text that was read. *)

From Stdlib Require Import Ascii String DecimalString.
From Stdlib Require Import List ZArith QArith Qreduction Bool Lia Lqa.
From Stdlib Require Import Permutation Sorted.
Import ListNotations.

Local Open Scope Z_scope.

(** ** Exceptions *)

Inductive exn : Type :=
| ValueError
| IndexError.

Inductive result (A : Type) : Type :=
| Ok (a : A)
| Raise (e : exn).

Arguments Ok {A} a.
Arguments Raise {A} e.

Definition bind {A B : Type} (m : result A) (k : A -> result B) : result B :=
  match m with
  | Ok a => k a
  | Raise e => Raise e
  end.

Notation "x <- m ;; k" := (bind m (fun x => k))
  (at level 61, m at next level, right associativity).

(** ** float64 values *)

Inductive f64 : Type :=
| Num (q : Q)
| Inf (neg : bool)
| NaN.

Definition Qzero (q : Q) : bool := Qeq_bool q 0.
Definition Qneg (q : Q) : bool := Qnum q <? 0.

Definition of_Z (z : Z) : f64 := Num (inject_Z z).
Definition of_nat (n : nat) : f64 := of_Z (Z.of_nat n).

Definition f0 : f64 := of_Z 0.
Definition f1 : f64 := of_Z 1.

Definition isna (x : f64) : bool :=
  match x with NaN => true | _ => false end.

Definition isinf (x : f64) : bool :=
  match x with Inf _ => true | _ => false end.

Definition isfinite (x : f64) : bool :=
  match x with Num _ => true | _ => false end.

Definition fopp (x : f64) : f64 :=
  match x with
  | Num q => Num (Qred (- q)%Q)
  | Inf s => Inf (negb s)
  | NaN => NaN
  end.

Definition fadd (x y : f64) : f64 :=
  match x, y with
  | Num a, Num b => Num (Qred (a + b)%Q)
  | Num _, Inf s => Inf s
  | Inf s, Num _ => Inf s
  | Inf s, Inf t => if Bool.eqb s t then Inf s else NaN
  | _, _ => NaN
  end.

Definition fsub (x y : f64) : f64 := fadd x (fopp y).

Definition fmul (x y : f64) : f64 :=
  match x, y with
  | Num a, Num b => Num (Qred (a * b)%Q)
  | Num a, Inf s => if Qzero a then NaN else Inf (xorb (Qneg a) s)
  | Inf s, Num b => if Qzero b then NaN else Inf (xorb s (Qneg b))
  | Inf s, Inf t => Inf (xorb s t)
  | _, _ => NaN
  end.

Definition fdiv (x y : f64) : f64 :=
  match x, y with
  | Num a, Num b =>
      if Qzero b then (if Qzero a then NaN else Inf (Qneg a))
      else Num (Qred (a / b)%Q)
  | Num _, Inf _ => Num 0
  | Inf s, Num b => Inf (xorb s (Qneg b))
  | _, _ => NaN
  end.

(** Square root of a non-negative rational, rounded down to a multiple of
    [1 / (den * 2^32)].  It vanishes at [0] only. *)
Definition Qsqrt (q : Q) : Q :=
  Qred (Z.sqrt (Qnum q * Zpos (Qden q) * 2 ^ 64) # (Qden q * 2 ^ 32)).

Definition fsqrt (x : f64) : f64 :=
  match x with
  | Num q => if Qneg q then NaN else Num (Qsqrt q)
  | Inf false => Inf false
  | _ => NaN
  end.

(** Comparisons: every comparison with NaN is false, [!=] is true. *)

Definition flt (x y : f64) : bool :=
  match x, y with
  | Num a, Num b => match Qcompare a b with Lt => true | _ => false end
  | Num _, Inf s => negb s
  | Inf s, Num _ => s
  | Inf s, Inf t => s && negb t
  | _, _ => false
  end.

Definition feq (x y : f64) : bool :=
  match x, y with
  | Num a, Num b => Qeq_bool a b
  | Inf s, Inf t => Bool.eqb s t
  | _, _ => false
  end.

Definition fle (x y : f64) : bool := flt x y || feq x y.
Definition fgt (x y : f64) : bool := flt y x.
Definition fge (x y : f64) : bool := fle y x.
Definition fne (x y : f64) : bool := negb (feq x y).

(** ** pandas Series operations *)

Section Series.
Context {A : Type}.

(** [s.shift(1)] of a series that can hold a missing value [na]. *)
Definition shift1 (na : A) (s : list A) : list A :=
  removelast (na :: s).

(** Element-wise binary operation of two series with the default index:
    the result is indexed by the union of the two indexes, and a label
    missing on one side gives [na]. *)
Fixpoint align {B C : Type} (na : C) (op : A -> B -> C)
         (s : list A) (t : list B) : list C :=
  match s, t with
  | [], [] => []
  | x :: s', y :: t' => op x y :: align na op s' t'
  | _ :: s', [] => na :: align na op s' []
  | [], _ :: t' => na :: (fix pad (u : list B) : list C :=
                            match u with
                            | [] => []
                            | _ :: u' => na :: pad u'
                            end) t'
  end.

(** [s[mask] = v] with a boolean mask on the same index. *)
Fixpoint mask_set (s : list A) (mask : list bool) (v : A) : list A :=
  match s, mask with
  | x :: s', b :: mask' => (if b then v else x) :: mask_set s' mask' v
  | _, _ => s
  end.

(** [s.ffill()]: a missing value takes the last value seen before it. *)
Fixpoint ffill_from (last : option A) (s : list (option A))
  : list (option A) :=
  match s with
  | [] => []
  | Some x :: s' => Some x :: ffill_from (Some x) s'
  | None :: s' => last :: ffill_from last s'
  end.

Definition ffill (s : list (option A)) : list (option A) :=
  ffill_from None s.

(** [s.fillna(v)] on a series of optional values. *)
Definition fillna_opt (v : A) (s : list (option A)) : list A :=
  map (fun o => match o with Some x => x | None => v end) s.
End Series.

Definition fillna (v : f64) (s : list f64) : list f64 :=
  map (fun x => if isna x then v else x) s.

Definition dropna (s : list f64) : list f64 :=
  filter (fun x => negb (isna x)) s.

Definition fsum (s : list f64) : f64 := fold_left fadd s f0.

(** [s.pct_change()]: [s / s.shift(1) - 1], with no filling of the input. *)
Definition pct_change (s : list f64) : list f64 :=
  align NaN (fun x p => fsub (fdiv x p) f1) s (shift1 NaN s).

(** [s.mean()] and [s.std()] (sample standard deviation, [ddof = 1]); both
    skip missing values. *)
Definition mean (s : list f64) : f64 :=
  let v := dropna s in
  match v with
  | [] => NaN
  | _ => fdiv (fsum v) (of_nat (length v))
  end.

Definition var (s : list f64) : f64 :=
  let v := dropna s in
  let count := length v in
  if (count <=? 1)%nat then NaN
  else
    let avg := fdiv (fsum v) (of_nat count) in
    let sqr := map (fun x => let d := fsub avg x in fmul d d) v in
    fdiv (fsum sqr) (of_nat (count - 1)).

Definition std (s : list f64) : f64 := fsqrt (var s).

(** [s.cumprod()]: missing entries count as [1] in the running product and
    are missing in the result. *)
Fixpoint cumprod_from (acc : f64) (s : list f64) : list f64 :=
  match s with
  | [] => []
  | x :: s' =>
      if isna x then NaN :: cumprod_from acc s'
      else let acc' := fmul acc x in acc' :: cumprod_from acc' s'
  end.

Definition cumprod (s : list f64) : list f64 :=
  match s with
  | [] => []
  | x :: s' =>
      if isna x then NaN :: cumprod_from f1 s'
      else x :: cumprod_from x s'
  end.

(** The trailing window of [w] values ending at the last element of [pre],
    for [s.rolling(window=w, min_periods=w).mean()]: undefined until the
    window is full, when the window is empty, and when the window holds a
    value that is not finite. *)
Definition window_mean (w : nat) (pre : list f64) : f64 :=
  if (length pre <? w)%nat then NaN
  else
    let win := skipn (length pre - w) pre in
    if (0 <? w)%nat && forallb isfinite win
    then fdiv (fsum win) (of_nat w)
    else NaN.

Definition rolling_mean (s : list f64) (window : Z) : result (list f64) :=
  if window <? 0 then Raise ValueError
  else
    Ok (map (fun i => window_mean (Z.to_nat window) (firstn (S i) s))
            (seq 0 (length s))).

(** ** The strategy pipeline *)

Definition FLAT : Z := 0.
Definition LONG : Z := 1.

Definition cross_up (fast_ma slow_ma : list f64) : list bool :=
  align false andb
        (align false fgt fast_ma slow_ma)
        (align false fle (shift1 NaN fast_ma) (shift1 NaN slow_ma)).

Definition cross_down (fast_ma slow_ma : list f64) : list bool :=
  align false andb
        (align false flt fast_ma slow_ma)
        (align false fge (shift1 NaN fast_ma) (shift1 NaN slow_ma)).

Definition moving_average_crossover_signals
           (prices : list f64) (fast slow : Z) : result (list Z) :=
  fast_ma <- rolling_mean prices fast ;;
  slow_ma <- rolling_mean prices slow ;;
  let signal := repeat (Some 0) (length prices) in
  let signal := mask_set signal (cross_up fast_ma slow_ma) (Some 1) in
  let signal := mask_set signal (cross_down fast_ma slow_ma) (Some 0) in
  Ok (fillna_opt 0 (ffill signal)).

Definition backtest_signals (prices : list f64) (signal : list Z)
  : list f64 :=
  let returns := fillna f0 (pct_change prices) in
  let position := fillna f0 (shift1 NaN (map of_Z signal)) in
  let strategy_returns := align NaN fmul returns position in
  cumprod (map (fadd f1) strategy_returns).

Definition iloc_last (s : list f64) : result f64 :=
  match rev s with
  | [] => Raise IndexError
  | x :: _ => Ok x
  end.

Definition sharpe_ratio (equity_returns : list f64) : f64 :=
  if fne (std equity_returns) f0
  then fdiv (fmul (fsqrt (of_Z 252)) (mean equity_returns))
            (std equity_returns)
  else f0.

Definition compute_performance (equity : list f64) : result (f64 * f64) :=
  last <- iloc_last equity ;;
  let total_return := fsub last f1 in
  let equity_returns := dropna (pct_change equity) in
  Ok (total_return, sharpe_ratio equity_returns).

Record StrategyPerformance : Type := mkPerf {
  fast_period : Z;
  slow_period : Z;
  total_return : f64;
  sharpe : f64;
  equity : list f64
}.

(** [range(lo, hi)] *)
Definition range (lo hi : Z) : list Z :=
  map (fun i => lo + Z.of_nat i) (seq 0 (Z.to_nat (hi - lo))).

(** A [for] loop whose body appends to a list and may raise. *)
Fixpoint for_each {A B : Type} (xs : list A) (body : A -> result (list B))
  : result (list B) :=
  match xs with
  | [] => Ok []
  | x :: xs' =>
      out <- body x ;;
      rest <- for_each xs' body ;;
      Ok (out ++ rest)
  end.

Definition evaluate (prices : list f64) (fast slow : Z)
  : result StrategyPerformance :=
  signal <- moving_average_crossover_signals prices fast slow ;;
  let equity := backtest_signals prices signal in
  perf <- compute_performance equity ;;
  Ok (mkPerf fast slow (fst perf) (snd perf) equity).

Definition evaluate_grid (prices : list f64) (fast_range slow_range : Z * Z)
  : result (list StrategyPerformance) :=
  let '(fast_start, fast_end) := fast_range in
  let '(slow_start, slow_end) := slow_range in
  for_each (range fast_start (fast_end + 1)) (fun fast =>
    for_each (range (Z.max (fast + 1) slow_start) (slow_end + 1)) (fun slow =>
      p <- evaluate prices fast slow ;;
      Ok [p])).

(** Python's [<] on the key tuples [(sharpe, total_return)]: the first
    components that are not [==] decide. *)
Definition key_lt (p q : StrategyPerformance) : bool :=
  if feq (sharpe p) (sharpe q)
  then (if feq (total_return p) (total_return q) then false
        else flt (total_return p) (total_return q))
  else flt (sharpe p) (sharpe q).

Section Sort.
Context {A : Type} (lt : A -> A -> bool).

(** A stable ascending sort that only asks [lt], as [list.sort] does.  On
    keys that [lt] orders totally every stable sort returns this list. *)
Fixpoint insert (x : A) (l : list A) : list A :=
  match l with
  | [] => [x]
  | y :: l' => if lt y x then y :: insert x l' else x :: y :: l'
  end.

Fixpoint sort (l : list A) : list A :=
  match l with
  | [] => []
  | x :: l' => insert x (sort l')
  end.

(** [l.sort(reverse=True)]: reverse, sort, reverse, which keeps the
    original order among equal keys. *)
Definition sort_reverse (l : list A) : list A := rev (sort (rev l)).
End Sort.

Definition find_best_edges (prices : list f64) (fast_range slow_range : Z * Z)
  : result (list StrategyPerformance) :=
  performances <- evaluate_grid prices fast_range slow_range ;;
  Ok (firstn 10 (sort_reverse key_lt performances)).

(** ** Python strings

    A [str] whose code points are all below 256 is the list of its
    characters; the methods below follow Python on that range.  A text that
    may hold other code points (the report of the analysis has a bullet,
    U+2022) is a list of code points. *)

Definition text : Type := list ascii.

Definition T (s : string) : text := list_ascii_of_string s.

Definition newline : ascii := ascii_of_nat 10.
Definition double_quote : ascii := ascii_of_nat 34.

(** [c.isspace()] *)
Definition isspace (c : ascii) : bool :=
  let n := nat_of_ascii c in
  ((9 <=? n) && (n <=? 13) || (28 <=? n) && (n <=? 32)
   || (n =? 133) || (n =? 160))%nat.

(** The line boundaries of [str.splitlines]. *)
Definition is_line_boundary (c : ascii) : bool :=
  let n := nat_of_ascii c in
  ((10 <=? n) && (n <=? 13) || (28 <=? n) && (n <=? 30) || (n =? 133))%nat.

Definition lower_char (c : ascii) : ascii :=
  let n := nat_of_ascii c in
  if ((65 <=? n) && (n <=? 90) || (192 <=? n) && (n <=? 214)
      || (216 <=? n) && (n <=? 222))%nat
  then ascii_of_nat (n + 32)
  else c.

(** [s.lower()] *)
Definition lower (s : text) : text := map lower_char s.

(** [s.lstrip(chars)], [s.rstrip(chars)] and [s.strip(chars)], the
    characters to remove given as a test. *)
Fixpoint lstrip_by (p : ascii -> bool) (s : text) : text :=
  match s with
  | [] => []
  | c :: s' => if p c then lstrip_by p s' else s
  end.

Fixpoint rstrip_by (p : ascii -> bool) (s : text) : text :=
  match s with
  | [] => []
  | c :: s' =>
      match rstrip_by p s' with
      | [] => if p c then [] else [c]
      | t => c :: t
      end
  end.

Definition strip_by (p : ascii -> bool) (s : text) : text :=
  rstrip_by p (lstrip_by p s).

(** [s.strip()] *)
Definition strip (s : text) : text := strip_by isspace s.

(** [s.startswith(prefix)] *)
Fixpoint startswith (s prefix : text) {struct prefix} : bool :=
  match prefix, s with
  | [], _ => true
  | p :: prefix', c :: s' => Ascii.eqb c p && startswith s' prefix'
  | _ :: _, [] => false
  end.

(** [sub in s] *)
Fixpoint contains (sub s : text) : bool :=
  startswith s sub
  || match s with
     | [] => false
     | _ :: s' => contains sub s'
     end.

(** [s.split(sep)] for a separator of one character. *)
Fixpoint split_char (sep : ascii) (s : text) : list text :=
  match s with
  | [] => [[]]
  | c :: s' =>
      if Ascii.eqb c sep then [] :: split_char sep s'
      else match split_char sep s' with
           | [] => [[c]]
           | l :: ls => (c :: l) :: ls
           end
  end.

(** The two parts of [s.split(sep, 1)] when [sep] occurs in [s]. *)
Fixpoint split_once (sep : ascii) (s : text) : text * text :=
  match s with
  | [] => ([], [])
  | c :: s' =>
      if Ascii.eqb c sep then ([], s')
      else let (a, b) := split_once sep s' in (c :: a, b)
  end.

(** [s.splitlines()] *)
Fixpoint splitlines (s : text) : list text :=
  match s with
  | [] => []
  | c :: s' =>
      if (nat_of_ascii c =? 13)%nat then
        match s' with
        | c' :: s'' =>
            if (nat_of_ascii c' =? 10)%nat then [] :: splitlines s''
            else [] :: splitlines s'
        | [] => [[]]
        end
      else if is_line_boundary c then [] :: splitlines s'
      else match splitlines s' with
           | [] => [[c]]
           | l :: ls => (c :: l) :: ls
           end
  end.

(** [sep.join(parts)] *)
Fixpoint join {A : Type} (sep : list A) (parts : list (list A)) : list A :=
  match parts with
  | [] => []
  | [p] => p
  | p :: parts' => p ++ sep ++ join sep parts'
  end.

(** [str(n)] of an integer. *)
Definition str_int (n : Z) : text :=
  list_ascii_of_string (NilEmpty.string_of_int (Z.to_int n)).

(** Code points. *)
Definition utext : Type := list N.

Definition U (s : text) : utext := map N_of_ascii s.

Definition bullet : N := 8226%N.

(** ** PowerLanguage texts *)

Definition keywords : list text := [T "buy"; T "sell"; T "short"; T "cover"].

(** The parameter declared by one part of an [inputs:] line, if any. *)
Definition parse_part (p : text) : list (text * text) :=
  let p := rstrip_by (Ascii.eqb (ascii_of_nat 59)) (strip p) in
  if contains (T "=") p
  then let (name, value) := split_once (ascii_of_nat 61) p in
       [(strip name, strip value)]
  else [].

(** The parameters declared by an [inputs:] line. *)
Definition parse_inputs (s : text) : list (text * text) :=
  flat_map parse_part
           (split_char (ascii_of_nat 44) (skipn (length (T "inputs:")) s)).

Definition is_rule (s : text) : bool :=
  existsb (fun k => contains k (lower s)) keywords.

(** The loop over the lines: the inputs and the rules found so far. *)
Definition scan_line (found : list (text * text) * list text) (line : text)
  : list (text * text) * list text :=
  let (inputs, rules) := found in
  let s := strip line in
  if startswith (lower s) (T "inputs:")
  then (inputs ++ parse_inputs s, rules)
  else if is_rule s then (inputs, rules ++ [s])
  else (inputs, rules).

Definition scan (content : text) : list (text * text) * list text :=
  fold_left scan_line (splitlines content) ([], []).

Definition report_lines (inputs : list (text * text)) (rules : list text)
  : list utext :=
  let report :=
    match inputs with
    | [] => []
    | _ :: _ =>
        U (T "Found input parameters:")
        :: map (fun nv =>
                  U (T "  - " ++ fst nv ++ T " (default " ++ snd nv ++ T ")"))
               inputs
    end in
  let report :=
    match rules with
    | [] => report
    | _ :: _ =>
        report ++ U (T "Detected trading rules:")
        :: map (fun r => U (T "  ") ++ bullet :: U (T " " ++ r)) rules
    end in
  match report with
  | [] => [U (T "No obvious inputs or trading rules were detected.")]
  | _ :: _ => report
  end.

(** [analyse_powerlanguage_file], from the text that was read. *)
Definition analyse_powerlanguage_file (content : text) : utext :=
  let (inputs, rules) := scan content in
  join [N_of_ascii newline] (report_lines inputs rules).

Definition generate_powerlanguage_strategy (name : text) (fast slow : Z)
  : text :=
  newline
  :: T "// Strategy: " ++ name ++ newline
  :: T "Inputs: FastLength(" ++ str_int fast
     ++ T "), SlowLength(" ++ str_int slow ++ T ");" ++ newline
  :: T "Vars: FastMA(0), SlowMA(0);" ++ newline
  :: T "FastMA = XAverage(Close, FastLength);" ++ newline
  :: T "SlowMA = XAverage(Close, SlowLength);" ++ newline
  :: T "If (FastMA crosses over SlowMA) Then" ++ newline
  :: T "    Buy (" ++ double_quote :: T "LongEntry" ++ double_quote
     :: T ") next bar at market;" ++ newline
  :: T "If (FastMA crosses under SlowMA) Then" ++ newline
  :: T "    Sell (" ++ double_quote :: T "LongExit" ++ double_quote
     :: T ") next bar at market;" ++ [newline].

(** The cleaning of a column name in [parse_data_file]:
    [c.strip().strip('<>').strip()]. *)
Definition is_angle (c : ascii) : bool :=
  Ascii.eqb c (ascii_of_nat 60) || Ascii.eqb c (ascii_of_nat 62).

Definition clean_column (c : text) : text :=
  strip (strip_by is_angle (strip c)).

(** The strategy text that [main] writes: the search, the first result,
    the generated text.  Printing and plotting are left out. *)
Definition main_strategy (prices : list f64) (fast_range slow_range : Z * Z)
           (strategy_name : text) : result text :=
  perfs <- find_best_edges prices fast_range slow_range ;;
  match perfs with
  | [] => Raise IndexError
  | best :: _ =>
      Ok (generate_powerlanguage_strategy
            strategy_name (fast_period best) (slow_period best))
  end.

(** ** Texts used in the statements *)

(** A text that stripping leaves alone. *)
Definition trimmed_by (p : ascii -> bool) (s : text) : Prop :=
  lstrip_by p s = s /\ rstrip_by p s = s.

Definition trimmed (s : text) : Prop := trimmed_by isspace s.

Definition one_line (s : text) : Prop :=
  Forall (fun c => is_line_boundary c = false) s.

Definition comma : ascii := ascii_of_nat 44.
Definition semicolon : ascii := ascii_of_nat 59.
Definition equals_sign : ascii := ascii_of_nat 61.

(** A declaration [name = value] and an [inputs:] line of declarations. *)
Definition input_decl (nv : text * text) : text :=
  fst nv ++ T " = " ++ snd nv.

Definition inputs_line (decls : list (text * text)) : text :=
  T "inputs: " ++ join (T ", ") (map input_decl decls) ++ T ";".

(** Names and values that such a line can carry: one line each, nothing to
    strip at their ends, no comma; no equals sign in the name and no
    semicolon at the end of the value. *)
Definition well_formed_decl (nv : text * text) : Prop :=
  trimmed (fst nv) /\ trimmed (snd nv)
  /\ one_line (fst nv) /\ one_line (snd nv)
  /\ ~ In comma (fst nv) /\ ~ In comma (snd nv)
  /\ ~ In equals_sign (fst nv)
  /\ rstrip_by (Ascii.eqb semicolon) (snd nv) = snd nv.

(** The lines of the generated strategy that the analysis can report. *)
Definition strategy_header (name : text) : text := T "// Strategy: " ++ name.

Definition buy_order : text :=
  T "Buy (" ++ double_quote :: T "LongEntry" ++ double_quote
  :: T ") next bar at market;".

Definition sell_order : text :=
  T "Sell (" ++ double_quote :: T "LongExit" ++ double_quote
  :: T ") next bar at market;".

(** The comma-separated parts of the declarations of an [inputs:] line. *)
Fixpoint decl_parts (decls : list (text * text)) : list text :=
  match decls with
  | [] => [T " ;"]
  | [d] => [T " " ++ input_decl d ++ T ";"]
  | d :: decls' => (T " " ++ input_decl d) :: decl_parts decls'
  end.

(** One item of the list of rules in the report. *)
Definition rule_item (r : text) : utext :=
  U (T "  ") ++ bullet :: U (T " " ++ r).

(** The characters of a decimal numeral. *)
Definition is_numeral (c : ascii) : bool :=
  let n := nat_of_ascii c in
  ((48 <=? n) && (n <=? 57) || (n =? 45))%nat.

(** The [Inputs:] line of the generated strategy and the lines after it. *)
Definition inputs_declaration (fast slow : Z) : text :=
  T "Inputs: FastLength(" ++ str_int fast
  ++ T "), SlowLength(" ++ str_int slow ++ T ");".

Definition strategy_body : text :=
  T "Vars: FastMA(0), SlowMA(0);" ++ newline
  :: T "FastMA = XAverage(Close, FastLength);" ++ newline
  :: T "SlowMA = XAverage(Close, SlowLength);" ++ newline
  :: T "If (FastMA crosses over SlowMA) Then" ++ newline
  :: T "    Buy (" ++ double_quote :: T "LongEntry" ++ double_quote
     :: T ") next bar at market;" ++ newline
  :: T "If (FastMA crosses under SlowMA) Then" ++ newline
  :: T "    Sell (" ++ double_quote :: T "LongExit" ++ double_quote
     :: T ") next bar at market;" ++ [newline].

(** ** Notions used in the statements *)

(** A finite and strictly positive value, as a well-formed price is. *)
Definition strictly_positive (x : f64) : Prop :=
  match x with
  | Num q => (0 < q)%Q
  | _ => False
  end.



(** The per-bar return, the position held during a bar, the strategy return
    and the equity of the bar before, as the design describes them. *)
Definition bar_return (prices : list f64) (i : nat) : f64 :=
  match i with
  | O => f0
  | S j => fsub (fdiv (nth i prices NaN) (nth j prices NaN)) f1
  end.

Definition held_position (signal : list Z) (i : nat) : f64 :=
  match i with
  | O => of_Z FLAT
  | S j => of_Z (nth j signal FLAT)
  end.

Definition strategy_return (prices : list f64) (signal : list Z) (i : nat)
  : f64 :=
  fmul (bar_return prices i) (held_position signal i).


(** The (fast, slow) pairs in the order the two loops visit them. *)
Definition grid (fast_range slow_range : Z * Z) : list (Z * Z) :=
  flat_map (fun fast =>
              map (pair fast)
                  (range (Z.max (fast + 1) (fst slow_range))
                         (snd slow_range + 1)))
           (range (fst fast_range) (snd fast_range + 1)).

Definition periods (p : StrategyPerformance) : Z * Z :=
  (fast_period p, slow_period p).



(** [p] may stand directly before [q] in a ranking. *)
Definition ranked_before (p q : StrategyPerformance) : bool :=
  fgt (sharpe p) (sharpe q)
  || (feq (sharpe p) (sharpe q) && fge (total_return p) (total_return q)).

Definition key_defined (p : StrategyPerformance) : Prop :=
  isna (sharpe p) = false /\ isna (total_return p) = false.



(** The place of a value that is not NaN on the extended rational line:
    its level (below, among or above the numbers) and its value there. *)
Definition lvl (x : f64) : Q :=
  match x with
  | Inf true => - 1
  | Inf false => 1
  | _ => 0
  end.

Definition val (x : f64) : Q :=
  match x with
  | Num q => q
  | _ => 0
  end.

Definition below (x y : f64) : Prop :=
  (lvl x < lvl y \/ (lvl x == lvl y /\ val x < val y))%Q.

Definition level (x y : f64) : Prop :=
  (lvl x == lvl y /\ val x == val y)%Q.

(** The lexicographic order of the keys [(sharpe, total_return)]. *)
Definition key_below (p q : StrategyPerformance) : Prop :=
  below (sharpe p) (sharpe q)
  \/ (level (sharpe p) (sharpe q) /\ below (total_return p) (total_return q)).

(** The cross-up and cross-down tests of bar [i] on the two averages: the
    first bar has no bar before it and is never an event. *)
Definition crosses_up (fast_ma slow_ma : list f64) (i : nat) : bool :=
  match i with
  | O => false
  | S j => fgt (nth i fast_ma NaN) (nth i slow_ma NaN)
           && fle (nth j fast_ma NaN) (nth j slow_ma NaN)
  end.

Definition crosses_down (fast_ma slow_ma : list f64) (i : nat) : bool :=
  match i with
  | O => false
  | S j => flt (nth i fast_ma NaN) (nth i slow_ma NaN)
           && fge (nth j fast_ma NaN) (nth j slow_ma NaN)
  end.

(** ** Lists and series *)

Lemma shift1_cons {A : Type} (na x : A) (s : list A) :
  shift1 na (x :: s) = na :: shift1 x s.
Proof. reflexivity. Qed.

Lemma length_shift1 {A : Type} (s : list A) :
  forall na, length (shift1 na s) = length s.
Proof.
  induction s as [|x s IH]; intros na; [reflexivity|].
  rewrite shift1_cons. simpl. now rewrite IH.
Qed.

Lemma align_nil_r {A B C : Type} (na : C) (op : A -> B -> C) (s : list A) :
  align na op s [] = repeat na (length s).
Proof. induction s as [|x s IH]; simpl; [reflexivity|now rewrite IH]. Qed.

Lemma align_nil_l {A B C : Type} (na : C) (op : A -> B -> C) (t : list B) :
  align (A:=A) na op [] t = repeat na (length t).
Proof.
  destruct t as [|y t]; [reflexivity|]. simpl. f_equal.
  induction t as [|z t IH]; simpl; [reflexivity|now rewrite IH].
Qed.

Lemma length_align {A B C : Type} (na : C) (op : A -> B -> C) :
  forall s t, length (align na op s t) = Nat.max (length s) (length t).
Proof.
  induction s as [|x s IH]; intros t.
  - rewrite align_nil_l, repeat_length. reflexivity.
  - destruct t as [|y t].
    + rewrite align_nil_r, repeat_length. reflexivity.
    + simpl. now rewrite IH.
Qed.

Lemma nth_align {A B C : Type} (na : C) (op : A -> B -> C) (dA : A) (dB : B) :
  forall s t i, (i < length s)%nat -> (i < length t)%nat ->
  nth i (align na op s t) na = op (nth i s dA) (nth i t dB).
Proof.
  induction s as [|x s IH]; intros t i Hs Ht; [simpl in Hs; lia|].
  destruct t as [|y t]; [simpl in Ht; lia|].
  destruct i as [|i]; simpl; [reflexivity|].
  apply IH; simpl in *; lia.
Qed.

Lemma nth_shift1 {A : Type} (d : A) :
  forall s na i, (i < length s)%nat ->
  nth i (shift1 na s) d = nth i (na :: s) d.
Proof.
  induction s as [|x s IH]; intros na i Hi; [simpl in Hi; lia|].
  rewrite shift1_cons. destruct i as [|i]; [reflexivity|].
  simpl in Hi.
  change (nth (S i) (na :: shift1 x s) d) with (nth i (shift1 x s) d).
  rewrite IH by lia. reflexivity.
Qed.

Lemma length_mask_set {A : Type} (v : A) :
  forall s mask, length (mask_set s mask v) = length s.
Proof.
  induction s as [|x s IH]; intros [|b mask]; simpl; try reflexivity.
  now rewrite IH.
Qed.


Lemma length_ffill_from {A : Type} (s : list (option A)) :
  forall last, length (ffill_from last s) = length s.
Proof.
  induction s as [|[x|] s IH]; intros last; simpl; auto.
Qed.


Lemma length_fillna (v : f64) (s : list f64) : length (fillna v s) = length s.
Proof. apply length_map. Qed.

Lemma length_cumprod_from (s : list f64) :
  forall acc, length (cumprod_from acc s) = length s.
Proof.
  induction s as [|x s IH]; intros acc; simpl; [reflexivity|].
  destruct (isna x); simpl; now rewrite IH.
Qed.

Lemma length_cumprod (s : list f64) : length (cumprod s) = length s.
Proof.
  destruct s as [|x s]; simpl; [reflexivity|].
  destruct (isna x); simpl; now rewrite length_cumprod_from.
Qed.

Lemma length_pct_change (s : list f64) : length (pct_change s) = length s.
Proof.
  unfold pct_change. rewrite length_align, length_shift1. lia.
Qed.

Lemma rolling_mean_ok (s : list f64) (w : Z) :
  0 <= w ->
  rolling_mean s w =
  Ok (map (fun i => window_mean (Z.to_nat w) (firstn (S i) s))
          (seq 0 (length s))).
Proof.
  intros Hw. unfold rolling_mean.
  destruct (Z.ltb_spec w 0); [lia|reflexivity].
Qed.

Lemma length_rolling_mean (s : list f64) (w : Z) (ma : list f64) :
  rolling_mean s w = Ok ma -> length ma = length s.
Proof.
  unfold rolling_mean. destruct (w <? 0); [discriminate|].
  intros [= <-]. now rewrite length_map, length_seq.
Qed.

Lemma length_cross_up (a b : list f64) :
  length a = length b -> length (cross_up a b) = length a.
Proof.
  intros H. unfold cross_up. rewrite !length_align, !length_shift1. lia.
Qed.

Lemma length_backtest_signals (prices : list f64) (signal : list Z) :
  length (backtest_signals prices signal)
  = Nat.max (length prices) (length signal).
Proof.
  unfold backtest_signals.
  rewrite length_cumprod, length_map, length_align, !length_fillna.
  now rewrite length_pct_change, length_shift1, length_map.
Qed.

Lemma length_signals (prices : list f64) (fast slow : Z) (signal : list Z) :
  moving_average_crossover_signals prices fast slow = Ok signal ->
  length signal = length prices.
Proof.
  unfold moving_average_crossover_signals.
  destruct (rolling_mean prices fast) as [fm|]; [|discriminate].
  destruct (rolling_mean prices slow) as [sm|]; [|discriminate].
  simpl. intros [= <-].
  unfold fillna_opt, ffill.
  now rewrite length_map, length_ffill_from, !length_mask_set, repeat_length.
Qed.

(** ** Arithmetic of [f64] *)

Lemma Qred_eq (a b : Q) : (a == b)%Q -> Qred a = Qred b.
Proof. apply Qred_complete. Qed.

Lemma Qzero_false (q : Q) : (0 < q)%Q -> Qzero q = false.
Proof.
  intros Hq. unfold Qzero. destruct (Qeq_bool q 0) eqn:E; [|reflexivity].
  apply Qeq_bool_iff in E. lra.
Qed.

(** The square-root approximation vanishes at 0 only, as the square root of
    a float does. *)
Lemma Qsqrt_zero (q : Q) : (0 <= q)%Q -> (Qsqrt q == 0 <-> q == 0)%Q.
Proof.
  intros Hq. unfold Qsqrt. rewrite Qred_correct.
  unfold Qle in Hq. unfold Qeq. cbn [Qnum Qden] in *.
  rewrite !Z.mul_1_r, !Z.mul_0_l in *.
  pose proof (Z.sqrt_pos (Qnum q * Z.pos (Qden q) * 2 ^ 64)) as Hs.
  assert (H64 : 0 < 2 ^ 64) by reflexivity.
  split; intros H.
  - assert (~ 0 < Qnum q * Z.pos (Qden q) * 2 ^ 64) by lia.
    nia.
  - rewrite H. reflexivity.
Qed.

Lemma positive_num (x : f64) :
  strictly_positive x -> exists q, x = Num q /\ (0 < q)%Q.
Proof.
  destruct x as [q| |]; simpl; intros H; try contradiction. now exists q.
Qed.



Lemma fmul_f1_l (q : Q) : fmul f1 (Num (Qred q)) = Num (Qred q).
Proof.
  unfold f1, of_Z. cbn [fmul]. f_equal.
  apply Qred_eq. change (inject_Z 1) with 1%Q. rewrite Qred_correct. ring.
Qed.

Lemma fmul_positive (x y : f64) :
  strictly_positive x -> strictly_positive y -> strictly_positive (fmul x y).
Proof.
  intros Hx Hy.
  destruct (positive_num _ Hx) as (a & -> & Ha).
  destruct (positive_num _ Hy) as (b & -> & Hb).
  cbn [fmul strictly_positive]. rewrite Qred_correct.
  now apply Qmult_lt_0_compat.
Qed.

(** The percent change between two well-formed prices is a number. *)
Lemma pct_positive (x p : f64) :
  strictly_positive x -> strictly_positive p ->
  exists a b, x = Num a /\ p = Num b /\ (0 < a)%Q /\ (0 < b)%Q /\
              fsub (fdiv x p) f1 = Num (Qred (Qred (a / b) + Qred (- 1))).
Proof.
  intros Hx Hp.
  destruct (positive_num _ Hx) as (a & -> & Ha).
  destruct (positive_num _ Hp) as (b & -> & Hb).
  exists a, b. repeat split; auto.
  unfold fdiv. rewrite (Qzero_false b Hb). reflexivity.
Qed.



Lemma cumprod_from_positive (s : list f64) :
  Forall strictly_positive s -> forall acc, strictly_positive acc ->
  Forall strictly_positive (cumprod_from acc s).
Proof.
  induction 1 as [|x s Hx _ IH]; intros acc Hacc; simpl; [constructor|].
  destruct (positive_num _ Hx) as (q & -> & Hq). cbn [isna].
  assert (strictly_positive (fmul acc (Num q)))
    by (apply fmul_positive; simpl; auto).
  constructor; auto.
Qed.

Lemma cumprod_positive (s : list f64) :
  Forall strictly_positive s -> Forall strictly_positive (cumprod s).
Proof.
  intros H. destruct H as [|x s Hx Hs]; simpl; [constructor|].
  destruct (positive_num _ Hx) as (q & -> & Hq). cbn [isna].
  constructor; [assumption|]. now apply cumprod_from_positive.
Qed.


Lemma cumprod_as_from (q : Q) (s : list f64) :
  cumprod (Num (Qred q) :: s) = cumprod_from f1 (Num (Qred q) :: s).
Proof.
  cbn [cumprod cumprod_from isna]. now rewrite fmul_f1_l.
Qed.

(** ** The backtest as a recurrence *)

Lemma nth_map_lt {A B : Type} (f : A -> B) (l : list A) (i : nat)
      (dA : A) (dB : B) :
  (i < length l)%nat -> nth i (map f l) dB = f (nth i l dA).
Proof.
  intros Hi. rewrite nth_indep with (d' := f dA) by (rewrite length_map; lia).
  apply map_nth.
Qed.

Lemma nth_fillna (v : f64) (s : list f64) (i : nat) :
  (i < length s)%nat ->
  nth i (fillna v s) NaN = if isna (nth i s NaN) then v else nth i s NaN.
Proof. intros Hi. unfold fillna. now rewrite (nth_map_lt _ _ _ NaN). Qed.

Lemma nth_positive (s : list f64) (i : nat) :
  Forall strictly_positive s -> (i < length s)%nat ->
  strictly_positive (nth i s NaN).
Proof. intros H Hi. now apply Forall_nth. Qed.

Lemma bar_return_num (prices : list f64) (i : nat) :
  Forall strictly_positive prices -> (i < length prices)%nat ->
  exists q, bar_return prices i = Num q.
Proof.
  intros Hp Hi. destruct i as [|j]; [now exists (inject_Z 0)|].
  cbn [bar_return].
  destruct (pct_positive (nth (S j) prices NaN) (nth j prices NaN))
    as (a & b & _ & _ & _ & _ & ->); try (apply nth_positive; auto; lia).
  eauto.
Qed.

Lemma nth_returns (prices : list f64) (i : nat) :
  Forall strictly_positive prices -> (i < length prices)%nat ->
  nth i (fillna f0 (pct_change prices)) NaN = bar_return prices i.
Proof.
  intros Hp Hi.
  rewrite nth_fillna by (now rewrite length_pct_change).
  unfold pct_change.
  rewrite (nth_align NaN _ NaN NaN) by (rewrite ?length_shift1; lia).
  rewrite nth_shift1 by lia.
  destruct i as [|j].
  - cbn [nth bar_return].
    destruct (positive_num _ (nth_positive prices 0 Hp Hi)) as (a & Ea & _).
    cbn [nth] in Ea. rewrite Ea. reflexivity.
  - change (nth (S j) (NaN :: prices) NaN) with (nth j prices NaN).
    destruct (bar_return_num prices (S j) Hp Hi) as (q & Hq).
    cbn [bar_return] in *. rewrite Hq. reflexivity.
Qed.

Lemma nth_position (signal : list Z) (i : nat) :
  (i < length signal)%nat ->
  nth i (fillna f0 (shift1 NaN (map of_Z signal))) NaN
  = held_position signal i.
Proof.
  intros Hi.
  rewrite nth_fillna by (now rewrite length_shift1, length_map).
  rewrite nth_shift1 by (now rewrite length_map).
  destruct i as [|j]; [reflexivity|].
  change (nth (S j) (NaN :: map of_Z signal) NaN)
    with (nth j (map of_Z signal) NaN).
  rewrite (nth_map_lt _ _ _ FLAT) by lia. reflexivity.
Qed.

Lemma strategy_return_num (prices : list f64) (signal : list Z) (i : nat) :
  Forall strictly_positive prices -> (i < length prices)%nat ->
  exists q, strategy_return prices signal i = Num q.
Proof.
  intros Hp Hi. unfold strategy_return.
  destruct (bar_return_num prices i Hp Hi) as (q & ->).
  destruct i; cbn [held_position of_Z fmul]; eauto.
Qed.

(** On well-formed prices the equity curve is the running product of the
    per-bar growth factors. *)
Lemma backtest_closed_form (prices : list f64) (signal : list Z) :
  Forall strictly_positive prices -> length signal = length prices ->
  backtest_signals prices signal
  = cumprod_from f1
      (map (fun i => fadd f1 (strategy_return prices signal i))
           (seq 0 (length prices))).
Proof.
  intros Hp Hlen. unfold backtest_signals.
  set (R := fillna f0 (pct_change prices)).
  set (Pn := fillna f0 (shift1 NaN (map of_Z signal))).
  assert (HR : length R = length prices)
    by (unfold R; now rewrite length_fillna, length_pct_change).
  assert (HP : length Pn = length prices)
    by (unfold Pn; now rewrite length_fillna, length_shift1, length_map).
  assert (E : map (fadd f1) (align NaN fmul R Pn)
              = map (fun i => fadd f1 (strategy_return prices signal i))
                    (seq 0 (length prices))).
  { apply (nth_ext _ _ NaN NaN).
    - rewrite !length_map, length_align, length_seq. lia.
    - intros i Hi. rewrite length_map, length_align in Hi.
      rewrite (nth_map_lt _ _ _ NaN) by (rewrite length_align; lia).
      rewrite (nth_align NaN fmul NaN NaN) by lia.
      unfold R, Pn. rewrite nth_returns, nth_position by (auto; lia).
      rewrite (nth_map_lt _ _ _ O) by (rewrite length_seq; lia).
      rewrite seq_nth by lia. reflexivity. }
  rewrite E. destruct prices as [|p prices]; [reflexivity|].
  cbn [length seq map].
  destruct (strategy_return_num (p :: prices) signal 0 Hp) as (q & ->);
    [simpl; lia|].
  cbn [fadd f1 of_Z]. apply cumprod_as_from.
Qed.

Lemma nth_map_seq {A : Type} (F : nat -> A) (n i : nat) (d : A) :
  (i < n)%nat -> nth i (map F (seq 0 n)) d = F i.
Proof.
  intros Hi. rewrite (nth_map_lt _ _ _ O) by (rewrite length_seq; lia).
  now rewrite seq_nth.
Qed.

(** ** The order of [f64] *)

Lemma flt_spec (x y : f64) :
  isna x = false -> isna y = false -> (flt x y = true <-> below x y).
Proof.
  unfold below.
  destruct x as [a|[|]|], y as [b|[|]|]; cbn [isna flt lvl val negb andb];
    intros Hx Hy; try discriminate;
    try (split; [intros _; lra | reflexivity]);
    try (split; [discriminate | lra]).
  destruct (Qcompare_spec a b) as [E|E|E]; split; try discriminate; try lra;
    auto.
Qed.

Lemma feq_spec (x y : f64) :
  isna x = false -> isna y = false -> (feq x y = true <-> level x y).
Proof.
  unfold level.
  destruct x as [a|[|]|], y as [b|[|]|]; cbn [isna feq lvl val Bool.eqb];
    intros Hx Hy; try discriminate;
    try (split; [intros _; lra | reflexivity]);
    try (split; [discriminate | lra]).
  rewrite Qeq_bool_iff. split; [intros; lra | intros [_ H]; exact H].
Qed.

Lemma flt_false (x y : f64) :
  isna x = false -> isna y = false -> (flt x y = false <-> ~ below x y).
Proof.
  intros Hx Hy. rewrite <- (flt_spec x y Hx Hy). now destruct (flt x y).
Qed.

Lemma feq_false (x y : f64) :
  isna x = false -> isna y = false -> (feq x y = false <-> ~ level x y).
Proof.
  intros Hx Hy. rewrite <- (feq_spec x y Hx Hy). now destruct (feq x y).
Qed.


Lemma key_lt_spec (p q : StrategyPerformance) :
  key_defined p -> key_defined q -> (key_lt p q = true <-> key_below p q).
Proof.
  intros [Hs Ht] [Hs' Ht']. unfold key_lt, key_below.
  destruct (feq (sharpe p) (sharpe q)) eqn:Es.
  - apply feq_spec in Es; auto.
    destruct (feq (total_return p) (total_return q)) eqn:Et.
    + apply feq_spec in Et; auto. unfold below, level in *.
      split; [discriminate|]. intros H. exfalso. lra.
    + apply feq_false in Et; auto. rewrite flt_spec by auto.
      unfold below, level in *. split; [tauto|]. intros H. lra.
  - apply feq_false in Es; auto. rewrite flt_spec by auto.
    unfold below, level in *. split; [tauto|]. intros H. lra.
Qed.

Lemma key_lt_false (p q : StrategyPerformance) :
  key_defined p -> key_defined q -> (key_lt p q = false <-> ~ key_below p q).
Proof.
  intros Hp Hq. rewrite <- (key_lt_spec p q Hp Hq). now destruct (key_lt p q).
Qed.

Lemma key_lt_asym (p q : StrategyPerformance) :
  key_defined p -> key_defined q -> key_lt p q = true -> key_lt q p = false.
Proof.
  intros Hp Hq. rewrite key_lt_spec, key_lt_false by auto.
  unfold key_below, below, level. lra.
Qed.

Lemma key_lt_negtrans (p q r : StrategyPerformance) :
  key_defined p -> key_defined q -> key_defined r ->
  key_lt q p = false -> key_lt r q = false -> key_lt r p = false.
Proof.
  intros Hp Hq Hr. rewrite !key_lt_false by auto.
  unfold key_below, below, level. lra.
Qed.

Lemma ranked_before_spec (p q : StrategyPerformance) :
  key_defined p -> key_defined q ->
  (ranked_before p q = true <-> key_lt p q = false).
Proof.
  intros [Hs Ht] [Hs' Ht']. rewrite key_lt_false by (split; auto).
  unfold ranked_before, fgt, fge, fle.
  rewrite orb_true_iff, andb_true_iff, orb_true_iff.
  rewrite !flt_spec, !feq_spec by auto.
  unfold key_below, below, level. lra.
Qed.


(** ** Ordered pairs of a list *)

Section OrdPairs.
Context {A : Type}.

Lemma FOP_app (R : A -> A -> Prop) (l1 l2 : list A) :
  ForallOrdPairs R l1 -> ForallOrdPairs R l2 ->
  (forall x y, In x l1 -> In y l2 -> R x y) ->
  ForallOrdPairs R (l1 ++ l2).
Proof.
  induction 1 as [|a l1 Ha _ IH]; intros H2 Hx; simpl; [assumption|].
  constructor.
  - apply Forall_app. split; [assumption|].
    apply Forall_forall. intros y Hy. apply Hx; simpl; auto.
  - apply IH; [assumption|]. intros x y Hx1 Hy. apply Hx; simpl; auto.
Qed.

Lemma FOP_rev (R : A -> A -> Prop) (l : list A) :
  ForallOrdPairs R l -> ForallOrdPairs (fun a b => R b a) (rev l).
Proof.
  induction 1 as [|a l Ha _ IH]; simpl; [constructor|].
  apply FOP_app; [assumption|repeat constructor|].
  intros x y Hx [<-|[]]. apply in_rev in Hx.
  revert x Hx. now apply Forall_forall.
Qed.

Lemma firstn_incl (n : nat) (l : list A) (x : A) :
  In x (firstn n l) -> In x l.
Proof.
  revert n. induction l as [|a l IH]; intros [|n]; simpl; try tauto.
  intros [H|H]; eauto.
Qed.



Lemma FOP_impl (R S : A -> A -> Prop) (l : list A) :
  (forall a b, In a l -> In b l -> R a b -> S a b) ->
  ForallOrdPairs R l -> ForallOrdPairs S l.
Proof.
  intros HRS H. induction H as [|a l Ha _ IH]; constructor.
  - apply Forall_forall. intros y Hy. rewrite Forall_forall in Ha.
    apply HRS; simpl; auto.
  - apply IH. intros x y Hx Hy. apply HRS; simpl; auto.
Qed.

End OrdPairs.

(** ** The stable sort *)

Section SortFacts.
Context {A : Type} (lt : A -> A -> bool).

Lemma insert_perm (x : A) (l : list A) :
  Permutation (insert lt x l) (x :: l).
Proof.
  induction l as [|y l IH]; simpl; [reflexivity|].
  destruct (lt y x); [|reflexivity].
  rewrite IH. apply perm_swap.
Qed.

Lemma sort_perm (l : list A) : Permutation (sort lt l) l.
Proof.
  induction l as [|x l IH]; simpl; [reflexivity|].
  rewrite insert_perm. now constructor.
Qed.

Lemma sort_reverse_perm (l : list A) : Permutation (sort_reverse lt l) l.
Proof.
  unfold sort_reverse.
  rewrite <- Permutation_rev, sort_perm, <- Permutation_rev. reflexivity.
Qed.

Lemma Forall_perm (P : A -> Prop) (l l' : list A) :
  Permutation l l' -> Forall P l -> Forall P l'.
Proof.
  intros Hp H. apply Forall_forall. intros x Hx.
  rewrite Forall_forall in H. apply H.
  eapply Permutation_in; [symmetry|]; eassumption.
Qed.

(** Stability: a relation that holds wherever the comparison puts two
    elements in order survives the sort. *)
Section Stable.
Variable T : A -> A -> Prop.
Hypothesis T_lt : forall a b, lt a b = true -> T a b.


End Stable.


(** Order: on elements that the comparison orders totally, the sort is
    ascending and the reversed sort descending. *)
Section Ordered.
Variable good : A -> Prop.
Hypothesis lt_asym :
  forall a b, good a -> good b -> lt a b = true -> lt b a = false.
Hypothesis lt_negtrans :
  forall a b c, good a -> good b -> good c ->
  lt b a = false -> lt c b = false -> lt c a = false.

Lemma insert_ascending (x : A) (l : list A) :
  good x -> Forall good l ->
  ForallOrdPairs (fun a b => lt b a = false) l ->
  ForallOrdPairs (fun a b => lt b a = false) (insert lt x l).
Proof.
  intros Gx. induction l as [|y l IH]; simpl; intros Gl Hl.
  - repeat constructor.
  - inversion Gl as [|? ? Gy Gl']; subst.
    inversion Hl as [|? ? Hy Hl']; subst.
    destruct (lt y x) eqn:E.
    + constructor; [|auto].
      apply (Forall_perm _ (x :: l)); [symmetry; apply insert_perm|].
      constructor; auto.
    + constructor; [|assumption].
      constructor; [assumption|].
      apply Forall_forall. intros z Hz.
      rewrite Forall_forall in Hy, Gl'.
      apply (lt_negtrans x y z); auto.
Qed.

Lemma sort_ascending (l : list A) :
  Forall good l -> ForallOrdPairs (fun a b => lt b a = false) (sort lt l).
Proof.
  induction 1 as [|x l Gx Gl IH]; simpl; [constructor|].
  apply insert_ascending; auto.
  apply (Forall_perm _ l); [symmetry; apply sort_perm|assumption].
Qed.

Lemma sort_reverse_descending (l : list A) :
  Forall good l ->
  ForallOrdPairs (fun a b => lt a b = false) (sort_reverse lt l).
Proof.
  intros Gl. unfold sort_reverse.
  apply (FOP_rev (fun a b => lt b a = false)).
  apply sort_ascending. now apply Forall_rev.
Qed.
End Ordered.
End SortFacts.

(** ** The two loops *)

Lemma in_range (lo hi x : Z) : In x (range lo hi) <-> lo <= x < hi.
Proof.
  unfold range. rewrite in_map_iff. split.
  - intros (i & <- & Hi). apply in_seq in Hi. lia.
  - intros H. exists (Z.to_nat (x - lo)). split; [lia|].
    apply in_seq. lia.
Qed.

Lemma FOP_map_intro {A B : Type} (f : A -> B) (R : B -> B -> Prop)
      (l : list A) :
  ForallOrdPairs (fun a b => R (f a) (f b)) l -> ForallOrdPairs R (map f l).
Proof.
  induction 1 as [|a l Ha _ IH]; simpl; constructor; [|assumption].
  apply Forall_map. exact Ha.
Qed.

Lemma seq_increasing (n : nat) :
  forall s, ForallOrdPairs Nat.lt (seq s n).
Proof.
  induction n as [|n IH]; intros s; simpl; constructor; [|apply IH].
  apply Forall_forall. intros y Hy. apply in_seq in Hy. unfold Nat.lt. lia.
Qed.

Lemma range_increasing (lo hi : Z) : ForallOrdPairs Z.lt (range lo hi).
Proof.
  unfold range. apply FOP_map_intro.
  apply (FOP_impl Nat.lt); [|apply seq_increasing].
  unfold Nat.lt. intros; lia.
Qed.

Lemma grid_fast_lt_slow (fast_range slow_range : Z * Z) :
  Forall (fun p => fst p < snd p) (grid fast_range slow_range).
Proof.
  unfold grid. apply Forall_flat_map, Forall_forall. intros fast _.
  apply Forall_map, Forall_forall. intros slow Hs.
  apply in_range in Hs. simpl. lia.
Qed.


Lemma for_each_map {A B C : Type} (g : B -> C) (h : A -> list C)
      (body : A -> result (list B)) :
  forall xs out,
  for_each xs body = Ok out ->
  (forall x o, In x xs -> body x = Ok o -> map g o = h x) ->
  map g out = flat_map h xs.
Proof.
  induction xs as [|x xs IH]; simpl; intros out H Hb.
  - now injection H as <-.
  - destruct (body x) as [o|] eqn:Eo; [|discriminate]. simpl in H.
    destruct (for_each xs body) as [r|] eqn:Er; [|discriminate]. simpl in H.
    injection H as <-. rewrite map_app. f_equal; eauto.
Qed.


Lemma flat_map_singleton {A B : Type} (f : A -> B) (l : list A) :
  flat_map (fun x => [f x]) l = map f l.
Proof. induction l as [|x l IH]; simpl; [reflexivity|now rewrite IH]. Qed.

Lemma evaluate_ok (prices : list f64) (fast slow : Z)
      (p : StrategyPerformance) :
  evaluate prices fast slow = Ok p ->
  periods p = (fast, slow) /\ length (equity p) = length prices.
Proof.
  unfold evaluate.
  destruct (moving_average_crossover_signals prices fast slow)
    as [signal|] eqn:Es; [|discriminate]. simpl.
  destruct (compute_performance _) as [perf|]; [|discriminate]. simpl.
  intros [= <-]. split; [reflexivity|]. simpl.
  rewrite length_backtest_signals, (length_signals _ _ _ _ Es). lia.
Qed.

Lemma evaluate_grid_periods (prices : list f64) (fast_range slow_range : Z * Z)
      (perfs : list StrategyPerformance) :
  evaluate_grid prices fast_range slow_range = Ok perfs ->
  map periods perfs = grid fast_range slow_range.
Proof.
  destruct fast_range as [fast_start fast_end].
  destruct slow_range as [slow_start slow_end].
  unfold evaluate_grid, grid. cbn [fst snd]. intros H.
  apply (for_each_map periods _ _ _ _ H). intros fast inner _ Hin.
  rewrite <- (flat_map_singleton (pair fast)).
  apply (for_each_map periods _ _ _ _ Hin). intros slow o _ Ho.
  destruct (evaluate prices fast slow) as [p|] eqn:Ep; [|discriminate].
  simpl in Ho. injection Ho as <-. simpl.
  now destruct (evaluate_ok _ _ _ _ Ep) as [-> _].
Qed.


Lemma find_best_edges_inv (prices : list f64) (fast_range slow_range : Z * Z)
      (res : list StrategyPerformance) :
  find_best_edges prices fast_range slow_range = Ok res ->
  exists perfs,
    evaluate_grid prices fast_range slow_range = Ok perfs /\
    res = firstn 10 (sort_reverse key_lt perfs).
Proof.
  unfold find_best_edges.
  destruct (evaluate_grid prices fast_range slow_range) as [perfs|];
    [|discriminate].
  simpl. intros [= <-]. now exists perfs.
Qed.

Lemma Forall_ranked {P : StrategyPerformance -> Prop}
      (perfs : list StrategyPerformance) :
  Forall P perfs -> Forall P (firstn 10 (sort_reverse key_lt perfs)).
Proof.
  intros H. apply Forall_forall. intros x Hx. apply firstn_incl in Hx.
  rewrite Forall_forall in H. apply H.
  eapply Permutation_in; [apply sort_reverse_perm|exact Hx].
Qed.

(** ** Signals *)

Lemma signal_of_masks (n : nat) :
  forall (up down : list bool) (last : option Z),
  length up = n -> length down = n ->
  fillna_opt 0
    (ffill_from last
       (mask_set (mask_set (repeat (Some 0) n) up (Some 1)) down (Some 0)))
  = map (fun ud : bool * bool =>
           if snd ud then FLAT else if fst ud then LONG else FLAT)
        (combine up down).
Proof.
  induction n as [|n IH]; intros [|u up] [|d down] last Hu Hd;
    try discriminate; [reflexivity|].
  injection Hu as Hu. injection Hd as Hd.
  cbn [repeat mask_set combine map].
  destruct d, u; cbn [ffill_from fillna_opt map fst snd]; f_equal;
    apply IH; assumption.
Qed.

(** What the code computes: a bar is LONG exactly when it is a cross-up bar
    (and not a cross-down bar); no earlier value is carried forward. *)
Lemma signals_are_cross_events (prices : list f64) (fast slow : Z)
      (fast_ma slow_ma : list f64) :
  rolling_mean prices fast = Ok fast_ma ->
  rolling_mean prices slow = Ok slow_ma ->
  moving_average_crossover_signals prices fast slow
  = Ok (map (fun ud : bool * bool =>
               if snd ud then FLAT else if fst ud then LONG else FLAT)
            (combine (cross_up fast_ma slow_ma)
                     (cross_down fast_ma slow_ma))).
Proof.
  intros Hf Hs. unfold moving_average_crossover_signals.
  rewrite Hf, Hs. cbn [bind]. f_equal.
  apply length_rolling_mean in Hf. apply length_rolling_mean in Hs.
  unfold ffill. apply signal_of_masks.
  - rewrite length_cross_up; congruence.
  - unfold cross_down. rewrite !length_align, !length_shift1. lia.
Qed.


Lemma window_mean_short (w : nat) (pre : list f64) :
  (length pre < w)%nat -> window_mean w pre = NaN.
Proof.
  intros H. unfold window_mean.
  destruct (Nat.ltb_spec (length pre) w); [reflexivity|lia].
Qed.










(** ** Scoring *)

Lemma iloc_last_ok (s : list f64) : s <> [] -> exists x, iloc_last s = Ok x.
Proof.
  intros H. unfold iloc_last. destruct (rev s) as [|x r] eqn:E; [|eauto].
  apply (f_equal (@rev f64)) in E. rewrite rev_involutive in E. contradiction.
Qed.

Lemma dropna_idem (s : list f64) : dropna (dropna s) = dropna s.
Proof.
  unfold dropna. induction s as [|x s IH]; simpl; [reflexivity|].
  destruct (isna x) eqn:E; simpl; [assumption|]. now rewrite E, IH.
Qed.

Lemma length_dropna (s : list f64) : (length (dropna s) <= length s)%nat.
Proof. apply filter_length_le. Qed.

Lemma std_zero_count (s : list f64) :
  feq (std s) f0 = true -> (2 <= length (dropna s))%nat.
Proof.
  unfold std, var.
  destruct (Nat.leb_spec (length (dropna s)) 1); [discriminate|lia].
Qed.


(** ** The empty series *)

Lemma signals_empty (fast slow : Z) :
  0 <= fast -> 0 <= slow ->
  moving_average_crossover_signals [] fast slow = Ok [].
Proof.
  intros Hf Hs. unfold moving_average_crossover_signals.
  now rewrite (rolling_mean_ok [] fast Hf), (rolling_mean_ok [] slow Hs).
Qed.

Lemma evaluate_empty (fast slow : Z) :
  0 <= fast -> 0 <= slow -> evaluate [] fast slow = Raise IndexError.
Proof.
  intros Hf Hs. unfold evaluate. now rewrite signals_empty.
Qed.

Lemma for_each_empty_or_raise {A B C : Type} (h : A -> list C) (e : exn)
      (body : A -> result (list B)) :
  forall xs,
  (forall x, In x xs ->
             body x = match h x with [] => Ok [] | _ :: _ => Raise e end) ->
  for_each xs body
  = match flat_map h xs with [] => Ok [] | _ :: _ => Raise e end.
Proof.
  induction xs as [|x xs IH]; intros H; [reflexivity|].
  cbn [for_each flat_map]. rewrite (H x) by (simpl; auto).
  destruct (h x) as [|c cs]; [|reflexivity].
  cbn [bind app]. rewrite IH by (intros; apply H; simpl; auto).
  now destruct (flat_map h xs).
Qed.

Lemma evaluate_grid_empty (fast_range slow_range : Z * Z) :
  0 <= fst fast_range ->
  evaluate_grid [] fast_range slow_range
  = match grid fast_range slow_range with
    | [] => Ok []
    | _ :: _ => Raise IndexError
    end.
Proof.
  destruct fast_range as [fast_start fast_end].
  destruct slow_range as [slow_start slow_end].
  cbn [fst]. intros H0. unfold evaluate_grid, grid. cbn [fst snd].
  apply for_each_empty_or_raise. intros fast Hfast.
  apply in_range in Hfast.
  rewrite <- (flat_map_singleton (pair fast)).
  apply for_each_empty_or_raise. intros slow Hslow.
  apply in_range in Hslow.
  now rewrite evaluate_empty by lia.
Qed.


Lemma for_each_nil {A B : Type} (body : A -> result (list B)) :
  forall xs,
  (forall x, In x xs -> body x = Ok []) -> for_each xs body = Ok [].
Proof.
  induction xs as [|x xs IH]; intros H; cbn [for_each]; [reflexivity|].
  rewrite (H x) by (simpl; auto). cbn [bind].
  rewrite IH by (intros; apply H; simpl; auto). reflexivity.
Qed.

Lemma flat_map_nil {A B : Type} (h : A -> list B) (xs : list A) (x : A) :
  flat_map h xs = [] -> In x xs -> h x = [].
Proof.
  intros Hnil Hx. destruct (h x) as [|c cs] eqn:E; [reflexivity|].
  assert (Hin : In c (flat_map h xs)).
  { apply in_flat_map. exists x. split; [assumption|]. rewrite E. simpl. auto. }
  rewrite Hnil in Hin. contradiction.
Qed.

(** A grid without pairs is searched without evaluating anything. *)
Lemma evaluate_grid_no_pairs (prices : list f64)
      (fast_range slow_range : Z * Z) :
  grid fast_range slow_range = [] ->
  evaluate_grid prices fast_range slow_range = Ok [].
Proof.
  destruct fast_range as [fast_start fast_end].
  destruct slow_range as [slow_start slow_end].
  unfold evaluate_grid, grid. cbn [fst snd]. intros Hgrid.
  apply for_each_nil. intros fast Hfast.
  pose proof (flat_map_nil _ _ fast Hgrid Hfast) as Hnil.
  apply map_eq_nil in Hnil. now rewrite Hnil.
Qed.

(** ** Defined scores *)




















(** ** Worked examples *)

(** The series of the design's scenario: the fast average is defined from
    index 1 and the slow one from index 2. *)
Example scenario_fast_ma :
  rolling_mean (map of_Z [100; 102; 101; 105; 103; 108]) 2
  = Ok [NaN; Num 101; Num (203 # 2); Num 103; Num 104; Num (211 # 2)].
Proof. reflexivity. Qed.

Example scenario_slow_ma :
  rolling_mean (map of_Z [100; 102; 101; 105; 103; 108]) 3
  = Ok [NaN; NaN; Num 101; Num (308 # 3); Num 103; Num (316 # 3)].
Proof. reflexivity. Qed.

(** A cross-up at index 3 is acted on one bar later: the equity moves on
    bar 4 only. *)
Example lagged_entry :
  moving_average_crossover_signals (map of_Z [1; 1; 1; 2; 3; 4]) 1 2
  = Ok [0; 0; 0; 1; 0; 0]
  /\ backtest_signals (map of_Z [1; 1; 1; 2; 3; 4]) [0; 0; 0; 1; 0; 0]
     = [Num 1; Num 1; Num 1; Num 1; Num (3 # 2); Num (3 # 2)].
Proof. split; reflexivity. Qed.

(** A negative window is refused by [rolling]. *)
Example negative_window :
  moving_average_crossover_signals (map of_Z [1; 2; 3]) (-1) 2
  = Raise ValueError.
Proof. reflexivity. Qed.

(** Prices and signals of different lengths leave missing values. *)
Example misaligned_signal :
  backtest_signals (map of_Z [1; 2]) [1] = [Num 1; NaN].
Proof. reflexivity. Qed.

(** * Properties of the specification *)

(** C1.  The signal is not carried forward between events.  On the prices
    [1, 1, 1, 2, 3, 4] with fast = 1 and slow = 2 the only event is a
    cross-up at index 3 and there is no cross-down, yet the signal is LONG
    at index 3 only: indices 4 and 5, which follow the cross-up and precede
    any cross-down, are FLAT.  The series is created holding 0 everywhere,
    so [ffill] finds nothing missing to fill. *)
Theorem crossover_signal_not_held :
  match rolling_mean (map of_Z [1; 1; 1; 2; 3; 4]) 1,
        rolling_mean (map of_Z [1; 1; 1; 2; 3; 4]) 2 with
  | Ok fast_ma, Ok slow_ma =>
      cross_up fast_ma slow_ma = [false; false; false; true; false; false]
      /\ cross_down fast_ma slow_ma
         = [false; false; false; false; false; false]
  | _, _ => False
  end
  /\ moving_average_crossover_signals (map of_Z [1; 1; 1; 2; 3; 4]) 1 2
     = Ok [FLAT; FLAT; FLAT; LONG; FLAT; FLAT].
Proof. vm_compute. repeat split. Qed.






(** C4.  Every pair of the grid has [fast < slow], whatever the two ranges
    are, and every record that [find_best_edges] returns carries a pair of
    the grid: the bound [max (fast + 1) slow_start] of the inner loop
    excludes the other pairs, and nothing is filtered afterwards. *)
Theorem fast_period_below_slow_period
        (prices : list f64) (fast_range slow_range : Z * Z) :
  Forall (fun p => fst p < snd p) (grid fast_range slow_range)
  /\ (forall perfs,
        evaluate_grid prices fast_range slow_range = Ok perfs ->
        map periods perfs = grid fast_range slow_range)
  /\ (forall res,
        find_best_edges prices fast_range slow_range = Ok res ->
        Forall (fun p => fast_period p < slow_period p) res).
Proof.
  split; [apply grid_fast_lt_slow|].
  split; [apply evaluate_grid_periods|].
  intros res Hres.
  destruct (find_best_edges_inv _ _ _ _ Hres) as (perfs & Hgrid & ->).
  apply Forall_ranked.
  pose proof (grid_fast_lt_slow fast_range slow_range) as H.
  rewrite <- (evaluate_grid_periods _ _ _ _ Hgrid) in H.
  rewrite Forall_map in H. exact H.
Qed.

Lemma fast_period_below_slow_period_witness :
  exists res,
    find_best_edges (map of_Z [3; 4; 6; 5; 7]) (2, 3) (1, 4) = Ok res
    /\ map periods res = [(2, 3); (2, 4); (3, 4)]
    /\ Forall (fun p => fast_period p < slow_period p) res.
Proof.
  let r := eval vm_compute in
        (find_best_edges (map of_Z [3; 4; 6; 5; 7]) (2, 3) (1, 4))
  in match r with Ok ?res => exists res end.
  split; [vm_compute; reflexivity|].
  split; [reflexivity|].
  apply (fast_period_below_slow_period
           (map of_Z [3; 4; 6; 5; 7]) (2, 3) (1, 4)).
  vm_compute. reflexivity.
Defined.














(** * Further properties of the pipeline *)

(** ** The signal, bar by bar *)

Lemma flt_asym (x y : f64) : flt x y = true -> flt y x = false.
Proof.
  destruct x as [a|[|]|], y as [b|[|]|]; cbn [flt negb andb];
    try discriminate; try reflexivity.
  rewrite <- (Qcompare_antisym a b).
  destruct (Qcompare a b); cbn [CompOpp]; congruence.
Qed.

Lemma nth_cross_up (fast_ma slow_ma : list f64) (i : nat) :
  length fast_ma = length slow_ma -> (i < length fast_ma)%nat ->
  nth i (cross_up fast_ma slow_ma) false = crosses_up fast_ma slow_ma i.
Proof.
  intros Hl Hi. unfold cross_up.
  rewrite (nth_align false andb false false)
    by (rewrite length_align, ?length_shift1; lia).
  rewrite (nth_align false fgt NaN NaN) by lia.
  rewrite (nth_align false fle NaN NaN) by (rewrite length_shift1; lia).
  rewrite !nth_shift1 by lia.
  destruct i as [|j]; [apply andb_false_r|reflexivity].
Qed.

Lemma nth_cross_down (fast_ma slow_ma : list f64) (i : nat) :
  length fast_ma = length slow_ma -> (i < length fast_ma)%nat ->
  nth i (cross_down fast_ma slow_ma) false = crosses_down fast_ma slow_ma i.
Proof.
  intros Hl Hi. unfold cross_down.
  rewrite (nth_align false andb false false)
    by (rewrite length_align, ?length_shift1; lia).
  rewrite (nth_align false flt NaN NaN) by lia.
  rewrite (nth_align false fge NaN NaN) by (rewrite length_shift1; lia).
  rewrite !nth_shift1 by lia.
  destruct i as [|j]; [apply andb_false_r|reflexivity].
Qed.

Lemma cross_events_exclusive (fast_ma slow_ma : list f64) (i : nat) :
  crosses_up fast_ma slow_ma i = true ->
  crosses_down fast_ma slow_ma i = false.
Proof.
  destruct i as [|j]; [discriminate|]. cbn [crosses_up crosses_down].
  unfold fgt. rewrite andb_true_iff. intros [H _].
  apply flt_asym in H. now rewrite H.
Qed.

Lemma length_cross_down (a b : list f64) :
  length a = length b -> length (cross_down a b) = length a.
Proof.
  intros H. unfold cross_down. rewrite !length_align, !length_shift1. lia.
Qed.

Lemma signals_by_bar (prices : list f64) (fast slow : Z)
      (fast_ma slow_ma : list f64) :
  rolling_mean prices fast = Ok fast_ma ->
  rolling_mean prices slow = Ok slow_ma ->
  moving_average_crossover_signals prices fast slow
  = Ok (map (fun i => if crosses_up fast_ma slow_ma i then LONG else FLAT)
            (seq 0 (length prices))).
Proof.
  intros Hf Hs. rewrite (signals_are_cross_events _ _ _ _ _ Hf Hs). f_equal.
  apply length_rolling_mean in Hf. apply length_rolling_mean in Hs.
  assert (Hu : length (cross_up fast_ma slow_ma) = length prices)
    by (rewrite length_cross_up; congruence).
  assert (Hd : length (cross_down fast_ma slow_ma) = length prices)
    by (rewrite length_cross_down; congruence).
  apply (nth_ext _ _ FLAT FLAT).
  - rewrite !length_map, length_combine, length_seq. lia.
  - intros i Hi. rewrite length_map, length_combine in Hi.
    rewrite (nth_map_lt _ _ _ (false, false))
      by (rewrite length_combine; lia).
    rewrite combine_nth by (now rewrite Hu, Hd). cbn [fst snd].
    rewrite nth_map_seq by lia.
    rewrite nth_cross_up, nth_cross_down by lia.
    destruct (crosses_up fast_ma slow_ma i) eqn:E.
    + now rewrite (cross_events_exclusive _ _ _ E).
    + now destruct (crosses_down fast_ma slow_ma i).
Qed.

Lemma nth_rolling_mean (prices : list f64) (w : Z) (ma : list f64) (i : nat) :
  rolling_mean prices w = Ok ma -> (i < length prices)%nat ->
  nth i ma NaN = window_mean (Z.to_nat w) (firstn (S i) prices).
Proof.
  unfold rolling_mean. destruct (w <? 0); [discriminate|].
  intros [= <-] Hi. now rewrite nth_map_seq.
Qed.

Lemma fle_nan_r (x : f64) : fle x NaN = false.
Proof. now destruct x as [a|[|]|]. Qed.

Lemma fle_nan_l (y : f64) : fle NaN y = false.
Proof. reflexivity. Qed.



(** X2.  The signal is FLAT on every bar before both windows have been full
    for one bar: no bar with index below [max fast slow] is LONG. *)
Theorem signal_flat_during_warm_up
        (prices : list f64) (fast slow : Z) (signal : list Z) (i : nat) :
  moving_average_crossover_signals prices fast slow = Ok signal ->
  Z.of_nat i < Z.max fast slow ->
  nth i signal FLAT = FLAT.
Proof.
  intros Hsig Hi.
  destruct (Nat.lt_ge_cases i (length prices)) as [Hlt|Hge].
  2:{ apply nth_overflow. rewrite (length_signals _ _ _ _ Hsig). lia. }
  destruct (rolling_mean prices fast) as [fm|] eqn:Ef.
  2:{ unfold moving_average_crossover_signals in Hsig. rewrite Ef in Hsig.
      discriminate Hsig. }
  destruct (rolling_mean prices slow) as [sm|] eqn:Es.
  2:{ unfold moving_average_crossover_signals in Hsig. rewrite Ef, Es in Hsig.
      discriminate Hsig. }
  rewrite (signals_by_bar _ _ _ _ _ Ef Es) in Hsig. injection Hsig as <-.
  rewrite nth_map_seq by lia.
  destruct i as [|j]; [reflexivity|]. cbn [crosses_up].
  rewrite (nth_rolling_mean _ _ _ j Ef), (nth_rolling_mean _ _ _ j Es) by lia.
  assert (Hlen : length (firstn (S j) prices) = S j)
    by (rewrite length_firstn; lia).
  destruct (Z.max_spec fast slow) as [[_ Hm]|[_ Hm]]; rewrite Hm in Hi.
  - rewrite (window_mean_short (Z.to_nat slow)) by lia.
    now rewrite fle_nan_r, andb_false_r.
  - rewrite (window_mean_short (Z.to_nat fast)) by lia.
    now rewrite fle_nan_l, andb_false_r.
Qed.

Lemma signal_flat_during_warm_up_witness :
  nth 2 [0; 0; 0; 1; 0; 0] FLAT = FLAT.
Proof.
  apply (signal_flat_during_warm_up
           (map of_Z [3; 1; 2; 6; 5; 9]) 1 3 [0; 0; 0; 1; 0; 0] 2).
  - vm_compute. reflexivity.
  - reflexivity.
Defined.

(** ** A constant price series *)



















(** ** The equity curve, bar by bar *)









Lemma firstn_cumprod_from (l : list f64) :
  forall k acc,
  firstn k (cumprod_from acc l) = cumprod_from acc (firstn k l).
Proof.
  induction l as [|x l IH]; intros [|k] acc; cbn [firstn cumprod_from];
    try reflexivity.
  destruct (isna x); cbn [firstn]; now rewrite IH.
Qed.

Lemma nth_firstn_lt {A : Type} (l : list A) (d : A) :
  forall k j, (j < k)%nat -> nth j (firstn k l) d = nth j l d.
Proof.
  induction l as [|x l IH]; intros [|k] [|j] H; cbn [firstn nth];
    try reflexivity; try lia.
  apply IH. lia.
Qed.

Lemma firstn_seq_min (m : nat) :
  forall n s, firstn n (seq s m) = seq s (Nat.min n m).
Proof.
  induction m as [|m IH]; intros [|n] s; cbn [seq firstn Nat.min];
    try reflexivity.
  now rewrite IH.
Qed.

(** X5.  The equity of a bar does not look ahead: on well-formed prices,
    two signals that agree on the first [i] bars give the same equity on
    the first [i + 1] bars.  In particular the signal of the last bar never
    reaches the equity curve. *)
Theorem backtest_no_look_ahead
        (prices : list f64) (signal signal' : list Z) (i : nat) :
  Forall strictly_positive prices ->
  length signal = length prices ->
  length signal' = length prices ->
  firstn i signal = firstn i signal' ->
  firstn (S i) (backtest_signals prices signal)
  = firstn (S i) (backtest_signals prices signal').
Proof.
  intros Hp Hl Hl' Hagree.
  rewrite !backtest_closed_form by assumption.
  rewrite !firstn_cumprod_from, !firstn_map. f_equal.
  apply map_ext_in. intros k Hk.
  f_equal. unfold strategy_return. f_equal.
  destruct k as [|j]; [reflexivity|]. cbn [held_position]. f_equal.
  assert (Hj : (j < i)%nat).
  { rewrite firstn_seq_min in Hk. apply in_seq in Hk. lia. }
  rewrite <- (nth_firstn_lt signal FLAT i j Hj).
  rewrite <- (nth_firstn_lt signal' FLAT i j Hj).
  now rewrite Hagree.
Qed.

Lemma backtest_no_look_ahead_witness :
  firstn 4 (backtest_signals (map of_Z [4; 2; 1; 3]) [1; 0; 1; 1])
  = firstn 4 (backtest_signals (map of_Z [4; 2; 1; 3]) [1; 0; 1; 0]).
Proof.
  apply (backtest_no_look_ahead
           (map of_Z [4; 2; 1; 3]) [1; 0; 1; 1] [1; 0; 1; 0] 3).
  - repeat constructor.
  - reflexivity.
  - reflexivity.
  - reflexivity.
Defined.



(** ** Outcomes of the search *)

Lemma range_nil (lo hi : Z) : hi <= lo -> range lo hi = [].
Proof.
  intros H. unfold range. replace (Z.to_nat (hi - lo)) with O by lia.
  reflexivity.
Qed.

Lemma grid_no_pairs (fast_range slow_range : Z * Z) :
  snd fast_range < fst fast_range
  \/ snd slow_range < fst slow_range
  \/ snd slow_range <= fst fast_range ->
  grid fast_range slow_range = [].
Proof.
  intros H. unfold grid.
  destruct (flat_map _ _) as [|c cs] eqn:E; [reflexivity|]. exfalso.
  assert (Hin : In c (c :: cs)) by (simpl; auto).
  rewrite <- E in Hin. apply in_flat_map in Hin.
  destruct Hin as (fast & Hfast & Hc).
  apply in_map_iff in Hc. destruct Hc as (slow & _ & Hslow).
  apply in_range in Hfast. apply in_range in Hslow. lia.
Qed.

(** X7.  A search whose ranges leave no pair with [fast < slow] (the fast
    range or the slow range is inverted, or the slow range ends at or below
    the first fast period) returns the empty list on every price series,
    well-formed or not, without evaluating anything. *)
Theorem search_without_pairs
        (prices : list f64) (fast_range slow_range : Z * Z) :
  snd fast_range < fst fast_range
  \/ snd slow_range < fst slow_range
  \/ snd slow_range <= fst fast_range ->
  find_best_edges prices fast_range slow_range = Ok [].
Proof.
  intros H. unfold find_best_edges.
  now rewrite evaluate_grid_no_pairs by (now apply grid_no_pairs).
Qed.

Lemma search_without_pairs_witness :
  find_best_edges [NaN; Num 0] (10, 5) (30, 60) = Ok [].
Proof.
  apply (search_without_pairs [NaN; Num 0] (10, 5) (30, 60)).
  left. reflexivity.
Defined.

Lemma evaluate_negative (prices : list f64) (fast slow : Z) :
  fast < 0 -> evaluate prices fast slow = Raise ValueError.
Proof.
  intros H. unfold evaluate, moving_average_crossover_signals, rolling_mean.
  destruct (Z.ltb_spec fast 0); [reflexivity|lia].
Qed.

Lemma evaluate_grid_negative (prices : list f64) (slow_start slow_end : Z) :
  forall fasts,
  ForallOrdPairs Z.lt fasts ->
  (exists fast,
     In fast fasts /\ fast < 0
     /\ range (Z.max (fast + 1) slow_start) (slow_end + 1) <> []) ->
  for_each fasts (fun fast =>
    for_each (range (Z.max (fast + 1) slow_start) (slow_end + 1))
             (fun slow => p <- evaluate prices fast slow ;; Ok [p]))
  = Raise ValueError.
Proof.
  induction 1 as [|x xs Hx _ IH]; intros (fast & Hin & Hneg & Hne).
  - contradiction.
  - cbn [for_each].
    destruct (range (Z.max (x + 1) slow_start) (slow_end + 1))
      as [|slow slows] eqn:Er.
    + cbn [for_each bind]. rewrite IH; [reflexivity|].
      exists fast. destruct Hin as [->|Hin]; [contradiction|]. auto.
    + cbn [for_each]. rewrite evaluate_negative; [reflexivity|].
      destruct Hin as [->|Hin]; [assumption|].
      rewrite Forall_forall in Hx. specialize (Hx fast Hin). lia.
Qed.

(** X8.  A grid that holds a pair with a negative fast period makes the
    search raise ValueError on every price series: the pairs are visited by
    increasing fast period, so the first pair evaluated is refused by
    [rolling]. *)
Theorem search_with_negative_period
        (prices : list f64) (fast_range slow_range : Z * Z) (pair : Z * Z) :
  In pair (grid fast_range slow_range) ->
  fst pair < 0 ->
  find_best_edges prices fast_range slow_range = Raise ValueError.
Proof.
  intros Hin Hneg. unfold find_best_edges.
  destruct fast_range as [fast_start fast_end].
  destruct slow_range as [slow_start slow_end].
  unfold evaluate_grid. unfold grid in Hin. cbn [fst snd] in Hin.
  apply in_flat_map in Hin. destruct Hin as (fast & Hfast & Hpair).
  apply in_map_iff in Hpair. destruct Hpair as (slow & <- & Hslow).
  cbn [fst] in Hneg.
  rewrite (evaluate_grid_negative prices slow_start slow_end);
    [reflexivity|apply range_increasing|].
  exists fast. repeat split; auto.
  intros Hnil. rewrite Hnil in Hslow. contradiction.
Qed.

Lemma search_with_negative_period_witness :
  find_best_edges (map of_Z [3; 4; 6; 5; 7]) (-1, 2) (1, 3)
  = Raise ValueError.
Proof.
  apply (search_with_negative_period
           (map of_Z [3; 4; 6; 5; 7]) (-1, 2) (1, 3) (-1, 1)).
  - vm_compute. auto.
  - reflexivity.
Defined.

(** X9.  On the empty price series a search whose fast range starts at a
    non-negative period and whose grid has a pair raises IndexError: the
    first pair is scored on an empty equity curve. *)
Theorem search_on_empty_series (fast_range slow_range : Z * Z) :
  0 <= fst fast_range ->
  grid fast_range slow_range <> [] ->
  find_best_edges [] fast_range slow_range = Raise IndexError.
Proof.
  intros H0 Hne. unfold find_best_edges.
  rewrite evaluate_grid_empty by assumption.
  destruct (grid fast_range slow_range); [contradiction|reflexivity].
Qed.

Lemma search_on_empty_series_witness :
  find_best_edges [] (5, 20) (30, 60) = Raise IndexError.
Proof.
  apply (search_on_empty_series (5, 20) (30, 60)).
  - simpl. lia.
  - vm_compute. discriminate.
Defined.






Lemma key_lt_irrefl (p : StrategyPerformance) :
  key_defined p -> key_lt p p = false.
Proof.
  intros Hp. destruct (key_lt p p) eqn:E; [|reflexivity].
  now rewrite (key_lt_asym p p Hp Hp E) in E.
Qed.

(** X11.  When no evaluated record has a NaN sharpe or total return, the
    first record returned is a best one: no evaluated record has a key
    [(sharpe, total_return)] above its key. *)
Theorem first_result_is_best
        (prices : list f64) (fast_range slow_range : Z * Z)
        (perfs rest : list StrategyPerformance) (best : StrategyPerformance) :
  evaluate_grid prices fast_range slow_range = Ok perfs ->
  Forall key_defined perfs ->
  find_best_edges prices fast_range slow_range = Ok (best :: rest) ->
  In best perfs
  /\ Forall (fun p => ranked_before best p = true /\ key_lt best p = false)
            perfs.
Proof.
  intros Hgrid Hdef Hres. unfold find_best_edges in Hres.
  rewrite Hgrid in Hres. cbn [bind] in Hres. injection Hres as Hres.
  pose proof (sort_reverse_perm key_lt perfs) as Hperm.
  pose proof (sort_reverse_descending key_lt key_defined
                key_lt_asym key_lt_negtrans perfs Hdef) as Hdesc.
  destruct (sort_reverse key_lt perfs) as [|b tail] eqn:E;
    [discriminate|].
  cbn [firstn] in Hres. injection Hres as -> _.
  assert (Hb : In best perfs).
  { eapply Permutation_in; [exact Hperm|]. simpl. auto. }
  split; [exact Hb|].
  inversion Hdesc as [|? ? Hhead _]; subst.
  rewrite Forall_forall in Hdef, Hhead.
  apply Forall_forall. intros p Hp.
  assert (Hlt : key_lt best p = false).
  { apply (Permutation_in _ (Permutation_sym Hperm)) in Hp.
    destruct Hp as [<-|Hp]; [apply key_lt_irrefl; auto|auto]. }
  split; [|exact Hlt]. apply ranked_before_spec; auto.
Qed.

Lemma first_result_is_best_witness :
  exists perfs best rest,
    find_best_edges (map of_Z [100; 102; 101; 105; 103; 108]) (1, 2) (2, 4)
    = Ok (best :: rest)
    /\ periods best = (1, 4)
    /\ In best perfs
    /\ Forall (fun p => ranked_before best p = true /\ key_lt best p = false)
              perfs.
Proof.
  let r := eval vm_compute in
        (evaluate_grid (map of_Z [100; 102; 101; 105; 103; 108]) (1, 2) (2, 4))
  in match r with Ok ?perfs => exists perfs end.
  let r := eval vm_compute in
        (find_best_edges (map of_Z [100; 102; 101; 105; 103; 108])
                         (1, 2) (2, 4))
  in match r with Ok (?best :: ?rest) => exists best, rest end.
  split; [vm_compute; reflexivity|].
  split; [reflexivity|].
  eapply (first_result_is_best
            (map of_Z [100; 102; 101; 105; 103; 108]) (1, 2) (2, 4)).
  - vm_compute. reflexivity.
  - repeat constructor.
  - vm_compute. reflexivity.
Defined.

(** ** Scores of short and of long series *)

Lemma fdiv_nan_r (x : f64) : fdiv x NaN = NaN.
Proof. now destruct x. Qed.

Lemma pct_change_head (x : f64) (s : list f64) :
  exists t, pct_change (x :: s) = NaN :: t /\ length t = length s.
Proof.
  unfold pct_change. rewrite shift1_cons. cbn [align].
  rewrite fdiv_nan_r. eexists. split; [reflexivity|].
  rewrite length_align, length_shift1. lia.
Qed.

Lemma sharpe_ratio_too_short (s : list f64) :
  (length (dropna s) <= 1)%nat -> sharpe_ratio s = NaN.
Proof.
  intros H. unfold sharpe_ratio, std, var.
  destruct (Nat.leb_spec (length (dropna s)) 1); [|lia].
  cbn [fsqrt fne feq negb]. apply fdiv_nan_r.
Qed.

(** X12.  A curve of one or two bars has at most one return, hence no
    sample standard deviation: [compute_performance] returns NaN as its
    sharpe, and so does every pair evaluated on a price series of fewer
    than three bars. *)
Theorem short_series_scores_nan :
  (forall equity,
     (1 <= length equity <= 2)%nat ->
     exists total, compute_performance equity = Ok (total, NaN))
  /\ (forall prices fast slow p,
        (length prices <= 2)%nat ->
        evaluate prices fast slow = Ok p ->
        sharpe p = NaN).
Proof.
  assert (Hshort : forall e, (length e <= 2)%nat ->
                   sharpe_ratio (dropna (pct_change e)) = NaN).
  { intros e He. apply sharpe_ratio_too_short. rewrite dropna_idem.
    destruct e as [|x s]; [simpl; lia|].
    destruct (pct_change_head x s) as (t & -> & Ht).
    change (dropna (NaN :: t)) with (dropna t).
    pose proof (length_dropna t). simpl in He. lia. }
  split.
  - intros equity He.
    destruct (iloc_last_ok equity) as (last & Hl).
    { intros ->. simpl in He. lia. }
    exists (fsub last f1). unfold compute_performance.
    rewrite Hl. cbn [bind]. rewrite Hshort by lia. reflexivity.
  - intros prices fast slow p Hlen. unfold evaluate.
    destruct (moving_average_crossover_signals prices fast slow)
      as [signal|] eqn:Es; [|discriminate].
    cbn [bind]. unfold compute_performance.
    destruct (iloc_last _) as [last|]; [|discriminate].
    cbn [bind fst snd]. intros [= <-]. cbn [sharpe].
    apply Hshort. rewrite length_backtest_signals.
    rewrite (length_signals _ _ _ _ Es). lia.
Qed.

Lemma short_series_scores_nan_witness :
  (exists total, compute_performance [Num 1; Num 2] = Ok (total, NaN))
  /\ sharpe (mkPerf 1 2 f0 NaN [f1; f1]) = NaN.
Proof.
  destruct short_series_scores_nan as (H1 & H2). split.
  - apply H1. simpl. lia.
  - apply (H2 (map of_Z [1; 2]) 1 2).
    + simpl. lia.
    + vm_compute. reflexivity.
Defined.



(** * Texts *)

(** ** Stripping *)

Lemma lstrip_by_pad (p : ascii -> bool) (a s : text) :
  Forall (fun c => p c = true) a -> lstrip_by p (a ++ s) = lstrip_by p s.
Proof.
  induction 1 as [|c a Hc _ IH]; [reflexivity|].
  cbn [app lstrip_by]. now rewrite Hc.
Qed.

Lemma lstrip_by_keep (p : ascii -> bool) (c : ascii) (s : text) :
  p c = false -> lstrip_by p (c :: s) = c :: s.
Proof. intros H. cbn [lstrip_by]. now rewrite H. Qed.

Lemma rstrip_by_snoc (p : ascii -> bool) (c : ascii) (s : text) :
  rstrip_by p (s ++ [c]) = if p c then rstrip_by p s else s ++ [c].
Proof.
  induction s as [|x s IH]; cbn [app rstrip_by].
  - now destruct (p c).
  - rewrite IH. destruct (p c); [reflexivity|].
    now destruct (s ++ [c]) eqn:E; [destruct s; discriminate E|].
Qed.

Lemma rstrip_by_pad (p : ascii -> bool) (b : text) :
  Forall (fun c => p c = true) b ->
  forall s, rstrip_by p (s ++ b) = rstrip_by p s.
Proof.
  induction 1 as [|c b Hc _ IH]; intros s; [now rewrite app_nil_r|].
  change (s ++ c :: b) with (s ++ [c] ++ b). rewrite app_assoc, IH.
  now rewrite rstrip_by_snoc, Hc.
Qed.

Lemma rstrip_by_fixed_app (p : ascii -> bool) (a v : text) :
  v <> [] -> rstrip_by p v = v -> rstrip_by p (a ++ v) = a ++ v.
Proof.
  intros Hne Hv. induction a as [|c a IH]; [exact Hv|].
  cbn [app rstrip_by]. rewrite IH.
  destruct (a ++ v) eqn:E; [|reflexivity].
  apply app_eq_nil in E. destruct E. contradiction.
Qed.

Lemma lstrip_by_stop (p : ascii -> bool) (a : text) (c : ascii) (s : text) :
  p c = false -> lstrip_by p (a ++ c :: s) = lstrip_by p a ++ c :: s.
Proof.
  intros Hc. induction a as [|x a IH]; cbn [app lstrip_by].
  - now rewrite Hc.
  - now destruct (p x).
Qed.

Lemma rstrip_by_stop (p : ascii -> bool) (a : text) (c : ascii) (s : text) :
  p c = false -> rstrip_by p (a ++ c :: s) = a ++ c :: rstrip_by p s.
Proof.
  intros Hc. induction a as [|x a IH]; cbn [app rstrip_by].
  - destruct (rstrip_by p s); [now rewrite Hc|reflexivity].
  - rewrite IH. now destruct a.
Qed.

Lemma lstrip_by_all (p : ascii -> bool) (a : text) :
  Forall (fun c => p c = true) a -> lstrip_by p a = [].
Proof.
  intros H. rewrite <- (app_nil_r a). now rewrite lstrip_by_pad.
Qed.

Lemma strip_by_pad (p : ascii -> bool) (a s b : text) :
  Forall (fun c => p c = true) a -> Forall (fun c => p c = true) b ->
  trimmed_by p s -> strip_by p (a ++ s ++ b) = s.
Proof.
  intros Ha Hb [Hl Hr]. unfold strip_by.
  rewrite lstrip_by_pad by assumption.
  destruct s as [|c s].
  - cbn [app]. rewrite (lstrip_by_all p b Hb). reflexivity.
  - cbn [app lstrip_by] in *. destruct (p c) eqn:Hc.
    + exfalso. apply (f_equal (@length ascii)) in Hl.
      assert (Hlen : forall t, (length (lstrip_by p t) <= length t)%nat).
      { induction t as [|x t IHt]; cbn [lstrip_by length]; [lia|].
        destruct (p x); cbn [length]; lia. }
      specialize (Hlen s). cbn [length] in Hl. lia.
    + change (c :: s ++ b) with ((c :: s) ++ b).
      now rewrite rstrip_by_pad.
Qed.

Lemma rstrip_by_idem (p : ascii -> bool) (s : text) :
  rstrip_by p (rstrip_by p s) = rstrip_by p s.
Proof.
  induction s as [|c s IH]; [reflexivity|]. cbn [rstrip_by].
  destruct (rstrip_by p s) as [|x t] eqn:E.
  - destruct (p c) eqn:Hc; [reflexivity|]. cbn [rstrip_by]. now rewrite Hc.
  - cbn [rstrip_by]. cbn [rstrip_by] in IH. now rewrite IH.
Qed.

Lemma lstrip_by_head (p : ascii -> bool) (s : text) :
  lstrip_by p s = [] \/ exists c t, lstrip_by p s = c :: t /\ p c = false.
Proof.
  induction s as [|c s IH]; [now left|]. cbn [lstrip_by].
  destruct (p c) eqn:Hc; [exact IH|]. right. eauto.
Qed.

Lemma rstrip_by_head (p : ascii -> bool) (c : ascii) (s : text) :
  p c = false -> exists t, rstrip_by p (c :: s) = c :: t.
Proof.
  intros Hc. cbn [rstrip_by]. destruct (rstrip_by p s); [|eauto].
  rewrite Hc. eauto.
Qed.

Lemma strip_by_trimmed (p : ascii -> bool) (s : text) :
  trimmed_by p (strip_by p s).
Proof.
  unfold trimmed_by, strip_by. split; [|apply rstrip_by_idem].
  destruct (lstrip_by_head p s) as [->|(c & t & -> & Hc)]; [reflexivity|].
  destruct (rstrip_by_head p c t Hc) as (t' & ->).
  now apply lstrip_by_keep.
Qed.

Lemma strip_by_fixed (p : ascii -> bool) (s : text) :
  trimmed_by p s -> strip_by p s = s.
Proof.
  intros H. rewrite <- (app_nil_r s) at 1.
  now apply (strip_by_pad p [] s []).
Qed.

Lemma in_lstrip_by (p : ascii -> bool) (c : ascii) (s : text) :
  In c (lstrip_by p s) -> In c s.
Proof.
  induction s as [|x s IH]; cbn [lstrip_by]; [auto|].
  destruct (p x); simpl; auto.
Qed.

Lemma in_rstrip_by (p : ascii -> bool) (c : ascii) (s : text) :
  In c (rstrip_by p s) -> In c s.
Proof.
  induction s as [|x s IH]; cbn [rstrip_by]; [auto|].
  destruct (rstrip_by p s) as [|y t].
  - destruct (p x); simpl; tauto.
  - intros [->|H]; simpl; auto.
Qed.

Lemma in_strip_by (p : ascii -> bool) (c : ascii) (s : text) :
  In c (strip_by p s) -> In c s.
Proof.
  unfold strip_by. intros H. apply in_rstrip_by in H.
  now apply in_lstrip_by in H.
Qed.

(** ** Splitting *)

Lemma split_char_whole (sep : ascii) (s : text) :
  ~ In sep s -> split_char sep s = [s].
Proof.
  induction s as [|c s IH]; intros H; [reflexivity|]. cbn [split_char].
  destruct (Ascii.eqb_spec c sep) as [->|_]; [exfalso; apply H; simpl; auto|].
  rewrite IH; [reflexivity|]. intros Hin. apply H. simpl. auto.
Qed.

Lemma split_char_app (sep : ascii) (a b : text) :
  ~ In sep a -> split_char sep (a ++ sep :: b) = a :: split_char sep b.
Proof.
  induction a as [|c a IH]; intros H; cbn [app split_char].
  - now rewrite Ascii.eqb_refl.
  - destruct (Ascii.eqb_spec c sep) as [->|_];
      [exfalso; apply H; simpl; auto|].
    rewrite IH; [reflexivity|]. intros Hin. apply H. simpl. auto.
Qed.

Lemma split_once_app (sep : ascii) (a b : text) :
  ~ In sep a -> split_once sep (a ++ sep :: b) = (a, b).
Proof.
  induction a as [|c a IH]; intros H; cbn [app split_once].
  - now rewrite Ascii.eqb_refl.
  - destruct (Ascii.eqb_spec c sep) as [->|_];
      [exfalso; apply H; simpl; auto|].
    rewrite IH; [reflexivity|]. intros Hin. apply H. simpl. auto.
Qed.

Lemma contains_char_true (c : ascii) (a b : text) :
  contains [c] (a ++ c :: b) = true.
Proof.
  induction a as [|x a IH]; cbn [app contains startswith].
  - now rewrite Ascii.eqb_refl.
  - rewrite IH. apply orb_true_r.
Qed.

Lemma contains_char_false (c : ascii) (s : text) :
  ~ In c s -> contains [c] s = false.
Proof.
  induction s as [|x s IH]; intros H; cbn [contains startswith];
    [reflexivity|].
  destruct (Ascii.eqb_spec x c) as [->|_]; [exfalso; apply H; simpl; auto|].
  cbn [andb orb]. apply IH. intros Hin. apply H. simpl. auto.
Qed.

Lemma splitlines_app (a b : text) :
  one_line a -> splitlines (a ++ newline :: b) = a :: splitlines b.
Proof.
  induction 1 as [|c a Hc _ IH]; [reflexivity|].
  cbn [app splitlines]. rewrite IH, Hc.
  destruct (Nat.eqb_spec (nat_of_ascii c) 13) as [E|_]; [|reflexivity].
  unfold is_line_boundary in Hc. rewrite E in Hc. discriminate Hc.
Qed.


Lemma not_boundary_not_cr (c : ascii) :
  is_line_boundary c = false -> (nat_of_ascii c =? 13)%nat = false.
Proof.
  intros Hc. destruct (Nat.eqb_spec (nat_of_ascii c) 13) as [E|_];
    [|reflexivity].
  unfold is_line_boundary in Hc. rewrite E in Hc. discriminate Hc.
Qed.

Lemma splitlines_whole (s : text) :
  one_line s -> splitlines s = match s with [] => [] | _ :: _ => [s] end.
Proof.
  induction 1 as [|c a Hc _ IH]; [reflexivity|].
  cbn [splitlines]. rewrite (not_boundary_not_cr c Hc), Hc, IH.
  now destruct a.
Qed.

(** ** Numerals *)

Lemma str_int_numeral (n : Z) :
  Forall (fun c => is_numeral c = true) (str_int n).
Proof.
  assert (Hu : forall d,
            Forall (fun c => is_numeral c = true)
                   (list_ascii_of_string (NilEmpty.string_of_uint d))).
  { induction d; cbn [NilEmpty.string_of_uint list_ascii_of_string];
      constructor; auto. }
  unfold str_int. destruct (Z.to_int n) as [d|d];
    cbn [NilEmpty.string_of_int list_ascii_of_string]; [apply Hu|].
  constructor; [reflexivity|apply Hu].
Qed.

Lemma numeral_lacks (n : Z) (c : ascii) :
  is_numeral c = false -> ~ In c (str_int n).
Proof.
  intros Hc Hin. pose proof (str_int_numeral n) as H.
  rewrite Forall_forall in H. rewrite (H c Hin) in Hc. discriminate Hc.
Qed.

Lemma numeral_one_line (n : Z) : one_line (str_int n).
Proof.
  apply Forall_forall. intros c Hin. pose proof (str_int_numeral n) as H.
  rewrite Forall_forall in H. specialize (H c Hin).
  unfold is_numeral in H. unfold is_line_boundary.
  destruct (Nat.leb_spec 48 (nat_of_ascii c));
    destruct (Nat.leb_spec (nat_of_ascii c) 57);
    destruct (Nat.eqb_spec (nat_of_ascii c) 45); cbn [andb orb] in H;
    try discriminate H;
    repeat match goal with
           | |- context [(?a <=? ?b)%nat] => destruct (Nat.leb_spec a b)
           | |- context [(?a =? ?b)%nat] => destruct (Nat.eqb_spec a b)
           end; cbn [andb orb]; try reflexivity; lia.
Qed.

(** ** The analysis of an [inputs:] line *)

Lemma scan_line_app (inputs : list (text * text)) (rules : list text)
      (line : text) :
  scan_line (inputs, rules) line
  = (inputs ++ fst (scan_line ([], []) line),
     rules ++ snd (scan_line ([], []) line)).
Proof.
  unfold scan_line.
  destruct (startswith _ _); [cbn [fst snd app]; now rewrite app_nil_r|].
  destruct (is_rule _); cbn [fst snd app]; now rewrite !app_nil_r.
Qed.

Lemma scan_lines_app (lines : list text) :
  forall inputs rules,
  fold_left scan_line lines (inputs, rules)
  = (inputs ++ fst (fold_left scan_line lines ([], [])),
     rules ++ snd (fold_left scan_line lines ([], []))).
Proof.
  induction lines as [|l lines IH]; intros inputs rules; cbn [fold_left].
  - cbn [fst snd]. now rewrite !app_nil_r.
  - rewrite scan_line_app.
    destruct (scan_line ([], []) l) as [a b]. cbn [fst snd].
    rewrite IH, (IH a b). cbn [fst snd]. now rewrite !app_assoc.
Qed.

Lemma trimmed_by_head (p : ascii -> bool) (s : text) :
  trimmed_by p s -> s = [] \/ exists c t, s = c :: t /\ p c = false.
Proof.
  intros [Hl _]. destruct (lstrip_by_head p s) as [E|(c & t & E & Hc)];
    rewrite Hl in E; eauto.
Qed.

Lemma strip_padded_left (n : text) :
  trimmed n -> strip (lstrip_by isspace (T " " ++ n ++ T " ")) = n.
Proof.
  intros Hn. rewrite (lstrip_by_pad isspace (T " "))
    by (repeat constructor).
  destruct (trimmed_by_head _ _ Hn) as [->|(c & t & -> & Hc)];
    [reflexivity|].
  change ((c :: t) ++ T " ") with (c :: t ++ T " ").
  rewrite lstrip_by_keep by assumption.
  change (c :: t ++ T " ") with ([] ++ (c :: t) ++ T " ").
  apply strip_by_pad; [constructor|repeat constructor|assumption].
Qed.

Lemma strip_padded_right (v tail : text) :
  trimmed v -> rstrip_by (Ascii.eqb semicolon) v = v ->
  tail = [] \/ tail = [semicolon] ->
  strip (rstrip_by (Ascii.eqb semicolon)
                   (rstrip_by isspace (T " " ++ v ++ tail))) = v.
Proof.
  intros Hv Hsemi Htail.
  assert (Hstrip : strip (T " " ++ v) = v).
  { rewrite <- (app_nil_r v) at 1.
    apply strip_by_pad; [repeat constructor|constructor|assumption]. }
  destruct v as [|c v].
  - destruct Htail as [->| ->]; reflexivity.
  - destruct Htail as [->| ->].
    + rewrite app_nil_r.
      rewrite !rstrip_by_fixed_app; try discriminate; auto.
      apply Hv.
    + rewrite (app_assoc (T " ")), rstrip_by_snoc.
      change (isspace semicolon) with false. cbv iota.
      rewrite rstrip_by_snoc, Ascii.eqb_refl.
      rewrite rstrip_by_fixed_app; try discriminate; auto.
Qed.

(** One declaration, followed or not by the semicolon that ends the line,
    is read back as its name and its value. *)
Lemma parse_decl (n v tail : text) :
  trimmed n -> trimmed v ->
  ~ In equals_sign n ->
  rstrip_by (Ascii.eqb semicolon) v = v ->
  tail = [] \/ tail = [semicolon] ->
  parse_part (T " " ++ (n ++ T " = " ++ v) ++ tail) = [(n, v)].
Proof.
  intros Hn Hv Heq Hsemi Htail. unfold parse_part. cbv zeta.
  replace (T " " ++ (n ++ T " = " ++ v) ++ tail)
    with ((T " " ++ n ++ T " ") ++ equals_sign :: (T " " ++ v ++ tail))
    by (cbn [T list_ascii_of_string app]; rewrite <- !app_assoc;
        reflexivity).
  assert (Hp : rstrip_by (Ascii.eqb (ascii_of_nat 59))
                 (strip ((T " " ++ n ++ T " ")
                         ++ equals_sign :: T " " ++ v ++ tail))
               = lstrip_by isspace (T " " ++ n ++ T " ")
                 ++ equals_sign
                 :: rstrip_by (Ascii.eqb semicolon)
                      (rstrip_by isspace (T " " ++ v ++ tail))).
  { unfold strip, strip_by.
    rewrite lstrip_by_stop by reflexivity.
    rewrite rstrip_by_stop by reflexivity.
    now rewrite (rstrip_by_stop (Ascii.eqb (ascii_of_nat 59)))
      by reflexivity. }
  rewrite Hp.
  change (T "=") with [equals_sign]. rewrite contains_char_true.
  change (ascii_of_nat 61) with equals_sign.
  rewrite split_once_app.
  - now rewrite strip_padded_left, strip_padded_right.
  - intros Hin. apply in_lstrip_by in Hin.
    apply in_app_or in Hin. destruct Hin as [Hin|Hin].
    + destruct Hin as [E|[]]. discriminate E.
    + apply in_app_or in Hin. destruct Hin as [Hin|Hin]; [auto|].
      destruct Hin as [E|[]]. discriminate E.
Qed.

Lemma decl_lacks_comma (d : text * text) :
  well_formed_decl d -> ~ In comma (T " " ++ input_decl d).
Proof.
  intros (_ & _ & _ & _ & Hn & Hv & _) Hin. unfold input_decl in Hin.
  apply in_app_or in Hin. destruct Hin as [[E|[]]|Hin]; [discriminate E|].
  apply in_app_or in Hin. destruct Hin as [Hin|Hin]; [auto|].
  apply in_app_or in Hin. destruct Hin as [Hin|Hin]; [|auto].
  destruct Hin as [E|[E|[E|[]]]]; discriminate E.
Qed.

Lemma split_decls (decls : list (text * text)) :
  Forall well_formed_decl decls ->
  split_char comma (T " " ++ join (T ", ") (map input_decl decls) ++ T ";")
  = decl_parts decls.
Proof.
  induction 1 as [|d ds Hd Hds IH]; [reflexivity|].
  destruct ds as [|d' ds].
  - cbn [map join decl_parts]. rewrite app_assoc.
    apply split_char_whole. intros Hin.
    apply in_app_or in Hin. destruct Hin as [Hin|[E|[]]];
      [now apply (decl_lacks_comma d)|discriminate E].
  - cbn [map decl_parts]. cbn [map] in IH.
    change (join (T ", ") (input_decl d :: input_decl d' :: map input_decl ds))
      with (input_decl d ++ T ", "
            ++ join (T ", ") (input_decl d' :: map input_decl ds)).
    replace (T " " ++ (input_decl d ++ T ", "
                       ++ join (T ", ")
                               (input_decl d' :: map input_decl ds))
             ++ T ";")
      with ((T " " ++ input_decl d)
            ++ comma
            :: (T " " ++ join (T ", ") (input_decl d' :: map input_decl ds)
                ++ T ";"))
      by (cbn [T list_ascii_of_string app]; rewrite <- !app_assoc;
          reflexivity).
    rewrite split_char_app by (now apply decl_lacks_comma).
    now rewrite IH.
Qed.

Lemma parse_parts (decls : list (text * text)) :
  Forall well_formed_decl decls ->
  flat_map parse_part (decl_parts decls) = decls.
Proof.
  induction 1 as [|[n v] ds Hd Hds IH]; [reflexivity|].
  destruct Hd as (Hn & Hv & _ & _ & _ & _ & Heq & Hsemi).
  cbn [fst snd] in *.
  destruct ds as [|d' ds].
  - cbn [decl_parts flat_map]. rewrite app_nil_r.
    unfold input_decl. cbn [fst snd].
    change (T ";") with [semicolon].
    apply (parse_decl n v [semicolon]); auto.
  - cbn [decl_parts flat_map]. cbn [decl_parts] in IH. rewrite IH.
    unfold input_decl at 1. cbn [fst snd].
    pose proof (parse_decl n v [] Hn Hv Heq Hsemi (or_introl eq_refl)) as H.
    rewrite app_nil_r in H. now rewrite H.
Qed.

Lemma one_line_app (a b : text) : one_line a -> one_line b -> one_line (a ++ b).
Proof. intros Ha Hb. apply Forall_app. now split. Qed.

Lemma one_line_join (sep : text) (parts : list text) :
  one_line sep -> Forall one_line parts -> one_line (join sep parts).
Proof.
  intros Hsep. induction 1 as [|p ps Hp Hps IH]; [constructor|].
  destruct ps as [|q ps]; [exact Hp|].
  change (join sep (p :: q :: ps)) with (p ++ sep ++ join sep (q :: ps)).
  auto using one_line_app.
Qed.

Lemma one_line_T (s : string) :
  forallb (fun c => negb (is_line_boundary c)) (T s) = true -> one_line (T s).
Proof.
  intros H. apply Forall_forall. intros c Hc.
  rewrite forallb_forall in H. specialize (H c Hc).
  now destruct (is_line_boundary c).
Qed.

(** X14.  An [inputs:] line that declares its parameters as
    [name = value], separated by commas and closed by a semicolon, is read
    back exactly: the analysis finds these names and values, in their
    order, and takes the line for no trading rule, whatever words the names
    hold. *)
Theorem inputs_line_round_trip (decls : list (text * text)) :
  Forall well_formed_decl decls ->
  scan (inputs_line decls) = (decls, []).
Proof.
  intros Hwf. unfold scan.
  set (L := inputs_line decls).
  assert (Hone : one_line L).
  { unfold L, inputs_line. apply one_line_app; [now apply one_line_T|].
    apply one_line_app; [|now apply one_line_T].
    apply one_line_join; [now apply one_line_T|].
    apply Forall_map. apply Forall_forall. intros d Hd.
    rewrite Forall_forall in Hwf.
    destruct (Hwf d Hd) as (_ & _ & H1 & H2 & _).
    unfold input_decl. apply one_line_app; [assumption|].
    apply one_line_app; [now apply one_line_T|assumption]. }
  rewrite (splitlines_whole L Hone).
  assert (Hshape : L = T "inputs:"
                       ++ (T " " ++ join (T ", ") (map input_decl decls)
                           ++ T ";")) by reflexivity.
  assert (Htrim : strip L = L).
  { apply strip_by_fixed. split.
    - rewrite Hshape. reflexivity.
    - unfold L, inputs_line. change (T ";") with [semicolon].
      rewrite !app_assoc. now rewrite rstrip_by_snoc. }
  destruct L as [|c L'] eqn:EL; [discriminate Hshape|].
  cbn [fold_left]. unfold scan_line. rewrite Htrim.
  rewrite Hshape.
  change (startswith
            (lower (T "inputs:"
                    ++ (T " " ++ join (T ", ") (map input_decl decls)
                        ++ T ";")))
            (T "inputs:")) with true.
  cbv iota. unfold parse_inputs.
  change (skipn (length (T "inputs:"))
                (T "inputs:"
                 ++ (T " " ++ join (T ", ") (map input_decl decls) ++ T ";")))
    with (T " " ++ join (T ", ") (map input_decl decls) ++ T ";").
  change (ascii_of_nat 44) with comma.
  rewrite (split_decls decls Hwf), (parse_parts decls Hwf). reflexivity.
Qed.

Lemma inputs_line_round_trip_witness :
  scan (inputs_line [(T "BuyLevel", T "3"); (T "Len", T "x = 2")])
  = ([(T "BuyLevel", T "3"); (T "Len", T "x = 2")], []).
Proof.
  apply (inputs_line_round_trip
           [(T "BuyLevel", T "3"); (T "Len", T "x = 2")]).
  repeat constructor; intros H; vm_compute in H; intuition discriminate.
Defined.

(** ** The analysis of a generated strategy *)

Lemma generated_shape (name : text) (fast slow : Z) :
  generate_powerlanguage_strategy name fast slow
  = [] ++ newline
    :: strategy_header name ++ newline
    :: inputs_declaration fast slow ++ newline :: strategy_body.
Proof.
  unfold generate_powerlanguage_strategy, strategy_header,
    inputs_declaration, strategy_body.
  cbn [app]. now rewrite <- !app_assoc.
Qed.

Lemma lacks_T (c : ascii) (s : string) :
  forallb (fun x => negb (Ascii.eqb x c)) (T s) = true -> ~ In c (T s).
Proof.
  intros H Hin. rewrite forallb_forall in H. specialize (H c Hin).
  now rewrite Ascii.eqb_refl in H.
Qed.

Lemma lacks_app (c : ascii) (a b : text) :
  ~ In c a -> ~ In c b -> ~ In c (a ++ b).
Proof. intros Ha Hb Hin. apply in_app_or in Hin. tauto. Qed.

Lemma parse_part_no_equals (p : text) :
  ~ In equals_sign p -> parse_part p = [].
Proof.
  intros H. unfold parse_part. cbv zeta.
  change (T "=") with [equals_sign].
  rewrite contains_char_false; [reflexivity|].
  intros Hin. apply in_rstrip_by, in_strip_by in Hin. contradiction.
Qed.

Lemma inputs_declaration_one_line (fast slow : Z) :
  one_line (inputs_declaration fast slow).
Proof.
  unfold inputs_declaration.
  repeat (apply one_line_app;
          [first [now apply one_line_T | apply numeral_one_line]|]).
  now apply one_line_T.
Qed.

(** The analysis reads nothing from the [Inputs:] line that the generator
    writes: it declares its parameters as [Name(value)]. *)
Lemma scan_inputs_declaration (fast slow : Z) :
  scan_line ([], []) (inputs_declaration fast slow) = ([], []).
Proof.
  set (I := inputs_declaration fast slow).
  assert (Hshape : I = T "Inputs:"
                       ++ ((T " FastLength(" ++ str_int fast ++ T ")")
                           ++ comma
                           :: (T " SlowLength(" ++ str_int slow ++ T ");")))
    by (unfold I, inputs_declaration; cbn [T list_ascii_of_string app];
        now rewrite <- !app_assoc).
  assert (Htrim : strip I = I).
  { apply strip_by_fixed. split.
    - rewrite Hshape. reflexivity.
    - unfold I, inputs_declaration. change (T ");") with (T ")" ++ [semicolon]).
      rewrite !app_assoc. now rewrite rstrip_by_snoc. }
  unfold scan_line. rewrite Htrim, Hshape.
  match goal with
  | |- context [startswith (lower (T "Inputs:" ++ ?X)) (T "inputs:")] =>
      change (startswith (lower (T "Inputs:" ++ X)) (T "inputs:")) with true
  end.
  cbv iota. unfold parse_inputs.
  match goal with
  | |- context [skipn (length (T "inputs:")) (T "Inputs:" ++ ?X)] =>
      change (skipn (length (T "inputs:")) (T "Inputs:" ++ X)) with X
  end.
  change (ascii_of_nat 44) with comma.
  rewrite split_char_app.
  2:{ repeat apply lacks_app; try (now apply lacks_T).
      now apply numeral_lacks. }
  rewrite split_char_whole.
  2:{ repeat apply lacks_app; try (now apply lacks_T).
      now apply numeral_lacks. }
  cbn [flat_map].
  rewrite !parse_part_no_equals; [reflexivity| |];
    repeat apply lacks_app; try (now apply lacks_T);
    now apply numeral_lacks.
Qed.

Lemma scan_strategy_header (name : text) :
  scan_line ([], []) (strategy_header name)
  = ([], filter is_rule [strip (strategy_header name)]).
Proof.
  unfold scan_line, strategy_header.
  assert (H : exists t, strip (T "// Strategy: " ++ name)
                        = ascii_of_nat 47 :: t).
  { unfold strip, strip_by.
    change (T "// Strategy: " ++ name)
      with (ascii_of_nat 47 :: T "/ Strategy: " ++ name).
    rewrite lstrip_by_keep by reflexivity.
    now apply rstrip_by_head. }
  destruct H as (t & Ht). rewrite Ht.
  change (startswith (lower (ascii_of_nat 47 :: t)) (T "inputs:")) with false.
  cbv iota. cbn [filter app].
  now destruct (is_rule (ascii_of_nat 47 :: t)).
Qed.

(** X15.  Reading a generated strategy back: whatever the two periods and
    the one-line name are, the analysis finds no input parameter in the
    text that [generate_powerlanguage_strategy] writes, although the text
    declares FastLength and SlowLength, and it reports the Buy and the Sell
    order as the trading rules (after the header line, when the name holds
    one of the four key words). *)
Theorem analysis_of_generated_strategy (name : text) (fast slow : Z) :
  one_line name ->
  scan (generate_powerlanguage_strategy name fast slow)
  = ([], filter is_rule [strip (strategy_header name)]
         ++ [buy_order; sell_order])
  /\ analyse_powerlanguage_file
       (generate_powerlanguage_strategy name fast slow)
     = join [N_of_ascii newline]
            (U (T "Detected trading rules:")
             :: map rule_item
                    (filter is_rule [strip (strategy_header name)]
                     ++ [buy_order; sell_order])).
Proof.
  intros Hname.
  assert (Hscan : scan (generate_powerlanguage_strategy name fast slow)
                  = ([], filter is_rule [strip (strategy_header name)]
                         ++ [buy_order; sell_order])).
  { unfold scan. rewrite generated_shape.
    rewrite splitlines_app by constructor.
    rewrite splitlines_app
      by (apply one_line_app; [now apply one_line_T|assumption]).
    rewrite splitlines_app by apply inputs_declaration_one_line.
    cbn [fold_left].
    change (scan_line ([], []) []) with (@nil (text * text), @nil text).
    rewrite scan_strategy_header, scan_line_app, scan_inputs_declaration.
    rewrite scan_lines_app. cbn [fst snd]. rewrite !app_nil_r.
    assert (Hbody : fold_left scan_line (splitlines strategy_body) ([], [])
                    = ([], [buy_order; sell_order]))
      by (vm_compute; reflexivity).
    now rewrite Hbody. }
  split; [exact Hscan|].
  unfold analyse_powerlanguage_file. rewrite Hscan.
  unfold report_lines.
  destruct (filter is_rule [strip (strategy_header name)]); reflexivity.
Qed.

Lemma analysis_of_generated_strategy_witness :
  scan (generate_powerlanguage_strategy (T "Trend") 5 30)
  = ([], [buy_order; sell_order])
  /\ scan (generate_powerlanguage_strategy (T "BuyDips") 5 30)
     = ([], [T "// Strategy: BuyDips"; buy_order; sell_order]).
Proof.
  split.
  - apply (analysis_of_generated_strategy (T "Trend") 5 30).
    repeat constructor.
  - apply (analysis_of_generated_strategy (T "BuyDips") 5 30).
    repeat constructor.
Defined.

(** ** Column names *)

(** X16.  A cleaned column name never begins or ends with white space, and
    the name that MultiCharts writes between angle brackets, with any white
    space around the brackets, is cleaned to the bare name. *)
Theorem clean_column_strips_brackets (c name before after : text) :
  trimmed (clean_column c)
  /\ (trimmed name -> trimmed_by is_angle name ->
      Forall (fun x => isspace x = true) before ->
      Forall (fun x => isspace x = true) after ->
      clean_column (before ++ (T "<" ++ name ++ T ">") ++ after) = name).
Proof.
  split; [apply strip_by_trimmed|].
  intros Hname Hangle Hbefore Hafter. unfold clean_column.
  assert (Hinner : strip (before ++ (T "<" ++ name ++ T ">") ++ after)
                   = T "<" ++ name ++ T ">").
  { apply strip_by_pad; try assumption. split.
    - reflexivity.
    - change (T "<" ++ name ++ T ">")
        with ((ascii_of_nat 60 :: name) ++ [ascii_of_nat 62]).
      now rewrite rstrip_by_snoc. }
  rewrite Hinner.
  rewrite (strip_by_pad is_angle (T "<") name (T ">"));
    try assumption; try (repeat constructor).
  now apply strip_by_fixed.
Qed.

Lemma clean_column_strips_brackets_witness :
  trimmed (clean_column (T "  < Close >  "))
  /\ clean_column (T " " ++ (T "<" ++ T "Close" ++ T ">") ++ T "  ")
     = T "Close".
Proof.
  destruct (clean_column_strips_brackets
              (T "  < Close >  ") (T "Close") (T " ") (T "  ")) as (H1 & H2).
  split; [exact H1|].
  apply H2; repeat constructor.
Defined.

(** ** The strategy that [main] writes *)

(** X17.  When the two ranges leave no pair with [fast < slow], [main]
    fails on every price series: the search returns no record and taking
    the first one raises IndexError. *)
Theorem main_without_pairs
        (prices : list f64) (fast_range slow_range : Z * Z) (name : text) :
  snd fast_range < fst fast_range
  \/ snd slow_range < fst slow_range
  \/ snd slow_range <= fst fast_range ->
  main_strategy prices fast_range slow_range name = Raise IndexError.
Proof.
  intros H. unfold main_strategy, find_best_edges.
  now rewrite evaluate_grid_no_pairs by (now apply grid_no_pairs).
Qed.

Lemma main_without_pairs_witness :
  main_strategy (map of_Z [3; 4; 6; 5; 7]) (5, 20) (3, 5) (T "Trend")
  = Raise IndexError.
Proof.
  apply (main_without_pairs (map of_Z [3; 4; 6; 5; 7]) (5, 20) (3, 5)).
  right. right. simpl. lia.
Defined.



